(** * Distributional Stability Index: the DSI core, its closed form, the
      convergence table and the perturbation model

    Shallow embedding of [src/dsi.py] and [src/perturbation.py].

    The numeric code is written once over an arithmetic interface
    ([Arith]); two instances are used:
    - [float] (IEEE 754 binary64, the kernel's primitive floats): the
      arithmetic the program runs on ([dtype=float]);
    - [Qc] (canonical rationals): exact arithmetic, in which the closed
      formulas of the paper are stated. *)

From Stdlib Require Import ZArith List Floats QArith Qcanon Qabs Lia Lqa String Bool.
From Stdlib Require Import Uint63 PArray.
From stdpp Require Import base list gmap.
Import ListNotations.

(** Decimal literals stand for the nearest binary64 value, as in Python. *)
Set Warnings "-inexact-float".

Open Scope Z_scope.

(** ** Errors and results *)

(** The exceptions the code can raise.  Both failures of [compute_dsi]
    are Python [ValueError]s and differ by their message. *)
Inductive exn : Type :=
  | ValueError (msg : string)
  | ZeroDivisionError
  | OverflowError.

Inductive result (A : Type) : Type :=
  | Ok (a : A)
  | Raise (e : exn).
Arguments Ok {A} a.
Arguments Raise {A} e.

Definition bind {A B : Type} (r : result A) (k : A -> result B) : result B :=
  match r with
  | Ok a => k a
  | Raise e => Raise e
  end.

(** ** Python ranges *)

(** [n] consecutive integers from [a] on. *)
Fixpoint range_from (n : nat) (a : Z) : list Z :=
  match n with
  | O => []
  | S n' => a :: range_from n' (a + 1)
  end.

(** [range(a, b)]: empty when [b <= a]. *)
Definition py_range (a b : Z) : list Z := range_from (Z.to_nat (b - a)) a.

(** ** The arithmetic interface *)

Class Arith (F : Type) : Type := {
  of_Z : Z -> F;          (* conversion of a Python int *)
  fadd : F -> F -> F;
  fsub : F -> F -> F;
  fmul : F -> F -> F;
  fdiv : F -> F -> F;
  fabs : F -> F;
  feqb : F -> F -> bool;  (* the comparison [==] *)
  py_int : F -> result Z  (* [int(x)]: truncation toward zero *)
}.

(** Binary64: an int is converted with round-to-nearest-even. *)
Definition float_of_Z (z : Z) : float :=
  SF2Prim (binary_normalize prec emax z 0 false).

Definition msg_nan_to_int : string := "cannot convert float NaN to integer".

(** [int(x)] on a float: the integer part; NaN and the infinities raise. *)
Definition float_to_int (x : float) : result Z :=
  match Prim2SF x with
  | S754_zero _ => Ok 0
  | S754_finite s m e =>
      let a := if 0 <=? e then Z.pos m * 2 ^ e else Z.pos m / 2 ^ (- e) in
      Ok (if s then - a else a)
  | S754_infinity _ => Raise OverflowError
  | S754_nan => Raise (ValueError msg_nan_to_int)
  end.

#[export] Instance float_arith : Arith float := {|
  of_Z := float_of_Z;
  fadd := PrimFloat.add;
  fsub := PrimFloat.sub;
  fmul := PrimFloat.mul;
  fdiv := PrimFloat.div;
  fabs := PrimFloat.abs;
  feqb := PrimFloat.eqb;
  py_int := float_to_int
|}.

(** Exact rationals.  Division by zero yields 0 in [Qc]; the code never
    divides by zero on the paths modelled with this instance. *)
Definition Qc_of_Z (z : Z) : Qc := Q2Qc (inject_Z z).

Definition Qc_abs (q : Qc) : Qc :=
  if Qclt_le_dec q (Q2Qc 0) then Qcopp q else q.

Definition Qc_to_int (q : Qc) : result Z :=
  Ok (Z.quot (Qnum q) (Z.pos (Qden q))).

#[export] Instance Qc_arith : Arith Qc := {|
  of_Z := Qc_of_Z;
  fadd := Qcplus;
  fsub := Qcminus;
  fmul := Qcmult;
  fdiv := Qcdiv;
  fabs := Qc_abs;
  feqb := Qc_eq_bool;
  py_int := Qc_to_int
|}.

(** ** NumPy reductions *)

Section NumPy.
Context {F : Type} `{Arith F}.

(** [res = 0.; for x in a: res += x] *)
Definition sum_from (res : F) (a : list F) : F :=
  fold_left fadd a res.

(** The eight accumulators of the unrolled block loop:
    [r[j] += a[i + j]] for every full block of eight. *)
Fixpoint lanes_add (r : list F) (a : list F) (blocks : nat) : list F :=
  match blocks with
  | O => r
  | S b => lanes_add (zip_with fadd r (take 8 a)) (drop 8 a) b
  end.

(** [((r0 + r1) + (r2 + r3)) + ((r4 + r5) + (r6 + r7))] *)
Definition lanes_fold (r : list F) : F :=
  match r with
  | [r0; r1; r2; r3; r4; r5; r6; r7] =>
      fadd (fadd (fadd r0 r1) (fadd r2 r3)) (fadd (fadd r4 r5) (fadd r6 r7))
  | _ => of_Z 0
  end.

(** A block of [8 <= n <= 128] elements. *)
Definition block_sum (a : list F) : F :=
  let n := length a in
  let full := (n / 8 - 1)%nat in
  let r := lanes_add (take 8 a) (drop 8 a) full in
  sum_from (lanes_fold r) (drop (8 * (n / 8)) a).

(** NumPy's pairwise summation ([pairwise_sum] of the [add] loops): a
    plain loop under 8 elements, the unrolled block up to 128, and a
    split in two halves, the first a multiple of 8, above.  [fuel]
    bounds the depth of the split; [length a] always suffices. *)
Fixpoint pairwise_sum_fuel (fuel : nat) (a : list F) : F :=
  let n := length a in
  if (n <? 8)%nat then sum_from (of_Z 0) a
  else if (n <=? 128)%nat then block_sum a
  else
    match fuel with
    | O => block_sum a
    | S fuel' =>
        let n2 := (n / 2 - (n / 2) mod 8)%nat in
        fadd (pairwise_sum_fuel fuel' (take n2 a))
             (pairwise_sum_fuel fuel' (drop n2 a))
    end.

Definition pairwise_sum (a : list F) : F :=
  pairwise_sum_fuel (length a) a.

(** [np.add.reduce]: the reduction starts from the identity 0. *)
Definition add_reduce (a : list F) : F :=
  fadd (of_Z 0) (pairwise_sum a).

(** [np.mean(a)]: [umr_sum(a) / rcount]. *)
Definition np_mean (a : list F) : F :=
  fdiv (add_reduce a) (of_Z (Z.of_nat (length a))).

(** [np.var(a, ddof)] ([_var] of [numpy/_core/_methods.py]): the mean,
    the deviations [x = a - mean], their squares [x * x], and the sum
    of the squares divided by [max(rcount - ddof, 0)]. *)
Definition np_var (a : list F) (ddof : Z) : F :=
  let rcount := Z.of_nat (length a) in
  let arrmean := fdiv (add_reduce a) (of_Z rcount) in
  let x := map (fun v => fsub v arrmean) a in
  let x := map (fun v => fmul v v) x in
  fdiv (add_reduce x) (of_Z (Z.max (rcount - ddof) 0)).

(** [x ** 2] *)
Definition pow2 (x : F) : F := fmul x x.

(** ** [compute_dsi] *)

Definition msg_too_short : string := "Need at least 2 values to compute DSI".
Definition msg_mad_zero : string := "MAD is zero - all values are identical".

Definition compute_dsi (values : list F) : result F :=
  let arr := values in
  if (length arr <? 2)%nat then Raise (ValueError msg_too_short)
  else
    let variance := np_var arr 0 in
    let mean := np_mean arr in
    let mad := np_mean (map fabs (map (fun v => fsub v mean) arr)) in
    if feqb mad (of_Z 0) then Raise (ValueError msg_mad_zero)
    else Ok (fdiv variance (pow2 mad)).

(** [np.array(values, dtype=float)] on a sequence of ints. *)
Definition np_array (values : list Z) : list F := map of_Z values.

(** The two failures of [compute_dsi], under the names of the
    specification. *)
Definition InvalidInput : exn := ValueError msg_too_short.
Definition DegenerateInput : exn := ValueError msg_mad_zero.

(** The value the local [mad] of [compute_dsi] takes. *)
Definition mad_of (arr : list F) : F :=
  np_mean (map fabs (map (fun v => fsub v (np_mean arr)) arr)).

(** ** The specification's formula

    The definition in the words of the specification: the arithmetic
    mean, the population variance as the mean of the squared deviations
    from the mean, the mean absolute deviation as the mean of the
    absolute deviations from the mean, and their ratio. *)
Definition arithmetic_mean (x : list F) : F :=
  fdiv (add_reduce x) (of_Z (Z.of_nat (length x))).

Definition population_variance (x : list F) : F :=
  arithmetic_mean (map (fun v => pow2 (fsub v (arithmetic_mean x))) x).

Definition mean_absolute_deviation (x : list F) : F :=
  arithmetic_mean (map (fun v => fabs (fsub v (arithmetic_mean x))) x).

Definition spec_dsi (x : list F) : F :=
  fdiv (population_variance x) (pow2 (mean_absolute_deviation x)).

(** ** [compute_dsi_theoretical] *)

Definition compute_dsi_theoretical (N : Z) : result F :=
  if N ^ 2 =? 0 then Raise ZeroDivisionError
  else Ok (fmul (fdiv (of_Z 4) (of_Z 3))
                (fsub (of_Z 1) (fdiv (of_Z 1) (of_Z (N ^ 2))))).

(** ** [dsi_convergence_table] *)

Definition default_N_values : list Z := map (fun k => 10 ^ k) (py_range 2 7).

(** The body of the [for] loop, with the rows appended so far. *)
Fixpoint convergence_loop (target : F) (N_values : list Z)
    (results : list (Z * F * F)) : result (list (Z * F * F)) :=
  match N_values with
  | [] => Ok results
  | N :: rest =>
      bind (compute_dsi (np_array (py_range 1 (N + 1)))) (fun dsi =>
        let diff := fabs (fsub dsi target) in
        convergence_loop target rest (results ++ [(N, dsi, diff)]))
  end.

Definition dsi_convergence_table (N_values : option (list Z))
    : result (list (Z * F * F)) :=
  let N_values := match N_values with
                  | None => default_N_values
                  | Some l => l
                  end in
  let target := fdiv (of_Z 4) (of_Z 3) in
  convergence_loop target N_values [].

(** The row of the table for one [N]. *)
Definition is_row (N : Z) (row : Z * F * F) : Prop :=
  exists dsi, compute_dsi (np_array (py_range 1 (N + 1))) = Ok dsi /\
              row = (N, dsi, fabs (fsub dsi (fdiv (of_Z 4) (of_Z 3)))).

End NumPy.

(** ** The Mersenne Twister behind [np.random]

    [np.random.seed] and [np.random.choice] act on NumPy's global
    [RandomState], an MT19937 generator ([mt19937.c]).  Its 32-bit words
    are machine integers with the wrap-around to 32 bits written out
    ([mask32]); the key is an array of 624 words. *)

Module MT19937.
Import Uint63 PArray.
Local Open Scope uint63_scope.

Definition RK_STATE_LEN : int := 624.
Definition MT_M : int := 397.
Definition MATRIX_A : int := 0x9908b0df.
Definition UPPER_MASK : int := 0x80000000.
Definition LOWER_MASK : int := 0x7fffffff.
Definition mask32 (x : int) : int := x land 0xffffffff.

Record state : Type := { key : array int; pos : int }.

(** [mt19937_seed]: [for pos in 0..623: key[pos] = seed;
    seed = (1812433253 * (seed ^ (seed >> 30)) + pos + 1) & 0xffffffff]. *)
Fixpoint seed_loop (n : nat) (p : int) (seed : int) (k : array int) : array int :=
  match n with
  | O => k
  | S n' =>
      seed_loop n' (p + 1)
        (mask32 (1812433253 * (seed lxor (seed >> 30)) + p + 1))
        k.[p <- seed]
  end.

Definition mt19937_seed (seed : int) : state :=
  {| key := seed_loop 624 0 (mask32 seed) (make RK_STATE_LEN 0);
     pos := RK_STATE_LEN |}.

(** [y = (key[i] & UPPER_MASK) | (key[i+1] & LOWER_MASK);
    key[i] = key[j] ^ (y >> 1) ^ (-(y & 1) & MATRIX_A)]. *)
Definition twist (ki ki1 kj : int) : int :=
  let y := (ki land UPPER_MASK) lor (ki1 land LOWER_MASK) in
  (kj lxor (y >> 1)) lxor (if (y land 1) =? 1 then MATRIX_A else 0).

(** [mt19937_gen]: its three loops update [key[0..623]] in increasing
    order, each step reading the current contents of the array; the
    indices [i + 1] and [i + M] wrap around at 624. *)
Fixpoint gen_loop (n : nat) (i : int) (k : array int) : array int :=
  match n with
  | O => k
  | S n' =>
      let i1 := (i + 1) mod RK_STATE_LEN in
      let j := (i + MT_M) mod RK_STATE_LEN in
      gen_loop n' (i + 1) k.[i <- twist k.[i] k.[i1] k.[j]]
  end.

Definition mt19937_gen (s : state) : state :=
  {| key := gen_loop 624 0 (key s); pos := 0 |}.

Definition temper (y : int) : int :=
  let y := y lxor (y >> 11) in
  let y := y lxor (mask32 (y << 7) land 0x9d2c5680) in
  let y := y lxor (mask32 (y << 15) land 0xefc60000) in
  y lxor (y >> 18).

(** [mt19937_next] *)
Definition mt19937_next (s : state) : int * state :=
  let s := if pos s =? RK_STATE_LEN then mt19937_gen s else s in
  (temper (key s).[pos s], {| key := key s; pos := pos s + 1 |}).

Definition next_uint32 (s : state) : Z * state :=
  let '(x, s) := mt19937_next s in (Uint63.to_Z x, s).

(** [(uint64_t)mt19937_next(state) << 32 | mt19937_next(state)] *)
Definition next_uint64 (s : state) : Z * state :=
  let '(hi, s) := mt19937_next s in
  let '(lo, s) := mt19937_next s in
  (Z.lor (Z.shiftl (Uint63.to_Z hi) 32) (Uint63.to_Z lo), s).

(** The state after [n] draws. *)
Fixpoint discard (n : nat) (s : state) : state :=
  match n with
  | O => s
  | S n' => discard n' (snd (mt19937_next s))
  end.

End MT19937.

(** ** Computations over a state *)

(** Computations that read and write a state [S] and may raise.  [None]
    stands for a rejection loop that outlives its fuel; the state reached
    is kept when an exception is raised. *)
Definition M (S A : Type) : Type := S -> option (result A * S).

Definition ret {S A : Type} (a : A) : M S A := fun w => Some (Ok a, w).

Definition raise {S A : Type} (e : exn) : M S A := fun w => Some (Raise e, w).

Definition lift {S A : Type} (r : result A) : M S A := fun w => Some (r, w).

Definition mbind {S A B : Type} (m : M S A) (k : A -> M S B) : M S B :=
  fun w =>
    match m w with
    | None => None
    | Some (Raise e, w') => Some (Raise e, w')
    | Some (Ok a, w') => k a w'
    end.

(** A computation that raises nothing. *)
Definition no_raise {S A : Type} (m : M S A) : Prop :=
  forall s e s', m s <> Some (Raise e, s').

Notation "'let!' x ':=' m 'in' k" := (mbind m (fun x => k))
  (at level 10, x name, m at level 100, k at level 200, only parsing).

(** ** [np.random]: the legacy [RandomState] *)

Module RandomState.

Definition rng : Type := MT19937.state.

Definition seed (s : Z) : M rng unit :=
  fun _ => Some (Ok tt, MT19937.mt19937_seed (Uint63.of_Z s)).

Definition draw (next : rng -> Z * rng) : M rng Z :=
  fun g => let '(x, g') := next g in Some (Ok x, g').

(** [while ((value = (next(state) & mask)) > max);] *)
Fixpoint reject_loop (fuel : nat) (next : rng -> Z * rng) (mask max : Z)
    : M rng Z :=
  match fuel with
  | O => fun _ => None
  | S fuel' =>
      let! x := draw next in
      let value := Z.land x mask in
      if max <? value then reject_loop fuel' next mask max else ret value
  end.

(** [random_interval]: a uniform integer of [[0, max]] by rejection;
    [mask] is the smallest [2^k - 1 >= max]. *)
Definition random_interval (fuel : nat) (max : Z) : M rng Z :=
  if max =? 0 then ret 0
  else
    let mask := Z.ones (Z.log2 max + 1) in
    if max <=? 0xffffffff
    then reject_loop fuel MT19937.next_uint32 mask max
    else reject_loop fuel MT19937.next_uint64 mask max.

(** The index array being shuffled, as a finite map from position to
    element. *)
Definition int_array : Type := gmap Z Z.

Definition arange (n : Z) : int_array :=
  list_to_map (map (fun i => (i, i)) (py_range 0 n)).

Definition to_list (n : Z) (x : int_array) : list Z :=
  map (fun i => x !!! i) (py_range 0 n).

(** [_shuffle_raw]: [for i in reversed(range(1, n)): j = random_interval(i);
    swap(x[i], x[j])].  [steps] counts the iterations left, [i] is the
    loop variable. *)
Fixpoint shuffle_raw (fuel : nat) (steps : nat) (i : Z) (x : int_array)
    : M rng int_array :=
  match steps with
  | O => ret x
  | S steps' =>
      let! j := random_interval fuel i in
      let xi := x !!! i in
      let xj := x !!! j in
      shuffle_raw fuel steps' (i - 1) (<[i := xj]> (<[j := xi]> x))
  end.

(** [permutation(n)]: [arr = np.arange(n); shuffle(arr)]. *)
Definition permutation (fuel : nat) (n : Z) : M rng (list Z) :=
  let! x := shuffle_raw fuel (Z.to_nat n - 1) (n - 1) (arange n) in
  ret (to_list n x).

Definition msg_choice_empty : string :=
  "a must be greater than 0 unless no samples are taken".
Definition msg_choice_larger : string :=
  "Cannot take a larger sample than population when 'replace=False'".
Definition msg_choice_negative : string := "negative dimensions are not allowed".

(** [choice(a, size, replace=False)] for an int [a]: the first [size]
    elements of a permutation of [range(a)]. *)
Definition choice (fuel : nat) (a size : Z) : M rng (list Z) :=
  if (a <=? 0) && negb (size =? 0) then raise (ValueError msg_choice_empty)
  else if a <? size then raise (ValueError msg_choice_larger)
  else if size <? 0 then raise (ValueError msg_choice_negative)
  else
    let! idx := permutation fuel a in
    ret (take (Z.to_nat size) idx).

End RandomState.

(** ** The program state: array buffers and the global generator *)

Record world (F : Type) : Type := {
  heap : list (list F);        (* the buffer of every array, by address *)
  rng : RandomState.rng        (* NumPy's global [RandomState] *)
}.
Arguments heap {F} w.
Arguments rng {F} w.

(** A computation on the global generator, run in the program state. *)
Definition np_random {F A : Type} (m : M RandomState.rng A) : M (world F) A :=
  fun w =>
    match m (rng w) with
    | None => None
    | Some (r, g) => Some (r, {| heap := heap w; rng := g |})
    end.

Section Program.
Context {F : Type} `{Arith F}.

(** Reads outside a buffer cannot happen on the paths modelled (the
    indices come from a permutation of the buffer's positions); the
    total lookup needs a default all the same. *)
#[export] Instance F_inhabited : Inhabited F := populate (of_Z 0).

(** Allocation of a fresh buffer; its address is returned. *)
Definition alloc (a : list F) : M (world F) nat :=
  fun w => Some (Ok (length (heap w)),
                 {| heap := heap w ++ [a]; rng := rng w |}).

Definition load (p : nat) : M (world F) (list F) :=
  fun w => Some (Ok (heap w !!! p), w).

Definition store (p : nat) (a : list F) : M (world F) unit :=
  fun w => Some (Ok tt, {| heap := <[p := a]> (heap w); rng := rng w |}).

(** [np.arange(a, b, dtype=float)] *)
Definition np_arange (a b : Z) : M (world F) nat :=
  alloc (np_array (py_range a b)).

(** [R[idx] *= c]: the selected elements are read, scaled, and written
    back at their indices. *)
Definition scatter (a : list F) (idx : list Z) (vals : list F) : list F :=
  fold_left (fun a iv => <[Z.to_nat (fst iv) := snd iv]> a) (zip idx vals) a.

Definition imul_at (p : nat) (idx : list Z) (c : F) : M (world F) unit :=
  let! a := load p in
  let vals := map (fun i => fmul (a !!! Z.to_nat i) c) idx in
  store p (scatter a idx vals).

(** [compute_dsi] called on a stored sequence:
    [arr = np.array(values, dtype=float)] copies the caller's buffer and
    everything after works on the copy. *)
Definition compute_dsi_at (values : nat) : M (world F) F :=
  let! v := load values in
  let! arr := alloc v in
  let! a := load arr in
  lift (compute_dsi a).

(** *** [compute_perturbed_dsi] *)

Definition compute_perturbed_dsi (fuel : nat) (N : Z)
    (perturbation_fraction perturbation_magnitude : F) : M (world F) F :=
  let! R := np_arange 1 (N + 1) in
  let! n_perturb := lift (py_int (fmul (of_Z N) perturbation_fraction)) in
  let! _ := (if 0 <? n_perturb
             then (let! _ := np_random (RandomState.seed 42) in
                   let! perturb_indices :=
                     np_random (RandomState.choice fuel N n_perturb) in
                   imul_at R perturb_indices (fadd (of_Z 1) perturbation_magnitude))
             else ret tt) in
  compute_dsi_at R.

(** The sequence [compute_perturbed_dsi] hands to [compute_dsi] once
    the elements at [idx] are scaled by [c]. *)
Definition perturbed (N : Z) (idx : list Z) (c : F) : list F :=
  let R := np_array (py_range 1 (N + 1)) in
  scatter R idx (map (fun i => fmul (R !!! Z.to_nat i) c) idx).

End Program.


(** ** Binary64 classes *)

(** NaN or an infinity. *)
Definition nonfinite (x : float) : bool := is_nan x || is_infinity x.

Definition sf_nonfinite (s : spec_float) : bool :=
  match s with
  | S754_nan | S754_infinity _ => true
  | _ => false
  end.

Definition P_nonfinite (x : float) : Prop := nonfinite x = true.

(** ** Exact sums *)

(** The exact sum of a list, and one half. *)
Definition total (l : list Qc) : Qc := fold_right Qcplus (Q2Qc 0) l.

Definition half : Qc := Q2Qc (1 # 2).

(** ** The check of the closed form

    [abs(computed - formula) < 1e-10], as [verify_convergence_formula]
    of [verify_tables.py] tests it, in binary64. *)
Definition within_tolerance (N : Z) : bool :=
  match compute_dsi (F := float) (np_array (py_range 1 (N + 1))),
        compute_dsi_theoretical (F := float) N with
  | Ok computed, Ok formula => (abs (computed - formula) <? 1e-10)%float
  | _, _ => false
  end.

(** C1 as stated: the check passes for every [N >= 2]. *)
Definition formula_within_tolerance_for_all_N : Prop :=
  forall N : Z, 2 <= N -> within_tolerance N = true.

(** ** The runs the examples are about *)

(** A state with one buffer of the caller's. *)
Definition sample_world : world float :=
  {| heap := [[3%float; 1%float; 2%float]];
     rng := MT19937.mt19937_seed 5489%uint63 |}.

(** The rejection loops of the runs below end well within this fuel. *)
Definition sample_fuel : nat := 64.

Definition value {A : Type} (o : option (result A * world float))
    : option (result A) :=
  option_map fst o.

(** *** The perturbation scenarios at N = 10000, magnitude 0.5 *)

(** The value returned for a fraction, in any state. *)
Definition perturbed_dsi_at (frac : float) (w : world float)
    : option (result float) :=
  value (compute_perturbed_dsi sample_fuel 10000 frac 0.5%float w).

(** C5 as stated: over the fractions from 0.0 to 0.10 the value
    returned never decreases. *)
Definition non_decreasing_in_fraction : Prop :=
  forall (f1 f2 v1 v2 : float) (w : world float),
    (0 <=? f1)%float = true -> (f1 <=? f2)%float = true ->
    (f2 <=? 0.10)%float = true ->
    perturbed_dsi_at f1 w = Some (Ok v1) ->
    perturbed_dsi_at f2 w = Some (Ok v2) ->
    (v1 <=? v2)%float = true.

(** ** Closed forms and the sampling invariant *)

(** The limit 4/3, as a fraction. *)
Definition four_thirds : Qc := Q2Qc (4 # 3).

(** The value of the DSI of [{1, ..., N}] for odd [N]:
    [(4/3) * N^2 / (N^2 - 1)]. *)
Definition dsi_odd (N : Z) : Qc :=
  (four_thirds * (Qc_of_Z (N ^ 2) / Qc_of_Z (N ^ 2 - 1)))%Qc.

(** An index array that holds a permutation of [0, ..., n - 1]. *)
Definition is_permutation (n : Z) (x : RandomState.int_array) : Prop :=
  (forall i, 0 <= i < n -> 0 <= x !!! i < n) /\
  (forall i j, 0 <= i < n -> 0 <= j < n -> x !!! i = x !!! j -> i = j).

(** * Properties *)

(** ** The DSI core *)

Section CoreProperties.
Context {F : Type} `{Arith F}.

Lemma compute_dsi_short (a : list F) :
  (length a < 2)%nat -> compute_dsi a = Raise InvalidInput.
Proof.
  intros Hlen. unfold compute_dsi.
  destruct (Nat.ltb_spec (length a) 2) as [_ | Hge]; [reflexivity | lia].
Qed.

Lemma compute_dsi_long (a : list F) :
  (2 <= length a)%nat ->
  compute_dsi a =
    if feqb (mad_of a) (of_Z 0) then Raise DegenerateInput
    else Ok (fdiv (np_var a 0) (pow2 (mad_of a))).
Proof.
  intros Hlen. unfold compute_dsi.
  destruct (Nat.ltb_spec (length a) 2) as [Hlt | _]; [lia | reflexivity].
Qed.

Lemma np_var_population (a : list F) :
  np_var a 0 = population_variance a.
Proof.
  unfold np_var, population_variance, arithmetic_mean, pow2.
  rewrite Z.sub_0_r, Z.max_l by lia.
  rewrite map_map, !length_map. reflexivity.
Qed.

Lemma mad_of_spec (a : list F) : mad_of a = mean_absolute_deviation a.
Proof.
  unfold mad_of, mean_absolute_deviation, np_mean, arithmetic_mean.
  rewrite map_map, !length_map. reflexivity.
Qed.

(** C3: [compute_dsi] fails with [InvalidInput] exactly on the
    sequences of length under 2, with the distinct [DegenerateInput]
    exactly on those of length at least 2 whose mean absolute deviation
    compares equal to 0, and returns a value on all others; a failure
    carries no value. *)
Theorem compute_dsi_errors (a : list F) :
  (compute_dsi a = Raise InvalidInput <-> (length a < 2)%nat) /\
  (compute_dsi a = Raise DegenerateInput <->
     (2 <= length a)%nat /\ feqb (mad_of a) (of_Z 0) = true) /\
  ((exists v, compute_dsi a = Ok v) <->
     (2 <= length a)%nat /\ feqb (mad_of a) (of_Z 0) = false) /\
  InvalidInput <> DegenerateInput /\
  (forall e, compute_dsi a = Raise e -> forall v, compute_dsi a <> Ok v).
Proof.
  assert (Hne : InvalidInput <> DegenerateInput) by discriminate.
  destruct (Nat.lt_ge_cases (length a) 2) as [Hlt | Hge].
  - rewrite (compute_dsi_short a Hlt).
    split; [tauto |]. split; [split; [congruence | lia] |].
    split; [split; [intros [v Hv]; discriminate | lia] |].
    split; [exact Hne | discriminate].
  - rewrite (compute_dsi_long a Hge).
    destruct (feqb (mad_of a) (of_Z 0)).
    + split; [split; [congruence | lia] |]. split; [tauto |].
      split; [split; [intros [v Hv]; discriminate | intros [_ Hf]; discriminate] |].
      split; [exact Hne | discriminate].
    + split; [split; [discriminate | lia] |].
      split; [split; [discriminate | intros [_ Hf]; discriminate] |].
      split; [split; [tauto | intros _; eexists; reflexivity] |].
      split; [exact Hne | discriminate].
Qed.


(** *** The convergence table *)

Lemma convergence_loop_rows (Ns : list Z) :
  forall acc rows,
    convergence_loop (fdiv (of_Z 4) (of_Z 3)) Ns acc = Ok rows <->
    exists rows', rows = acc ++ rows' /\ Forall2 is_row Ns rows'.
Proof.
  induction Ns as [| N Ns IH]; intros acc rows; simpl.
  - split.
    + intros [= <-]. exists []. split; [by rewrite app_nil_r | constructor].
    + intros (rows' & -> & Hall). inversion Hall. by rewrite app_nil_r.
  - destruct (compute_dsi (np_array (py_range 1 (N + 1)))) as [d | e] eqn:Hd; simpl.
    + rewrite IH. split.
      * intros (rows' & -> & Hall).
        exists ((N, d, fabs (fsub d (fdiv (of_Z 4) (of_Z 3)))) :: rows').
        split; [by rewrite <- app_assoc |].
        constructor; [| exact Hall]. exists d. by rewrite Hd.
      * intros (rows' & -> & Hall).
        inversion Hall as [| ? row ? rest Hrow Hrest]; subst.
        destruct Hrow as (d' & Hd' & ->).
        rewrite Hd in Hd'. injection Hd' as <-.
        exists rest. split; [by rewrite <- app_assoc | exact Hrest].
    + split; [discriminate |].
      intros (rows' & -> & Hall).
      inversion Hall as [| ? row ? rest Hrow Hrest]; subst.
      destruct Hrow as (d' & Hd' & _). rewrite Hd in Hd'. discriminate.
Qed.

(** C7: [dsi_convergence_table] returns one row per input [N], in the
    order of the input, each row being [(N, compute_dsi({1..N}),
    |DSI - 4/3|)]; without an argument the [N] are
    [10^2, 10^3, 10^4, 10^5, 10^6]. *)
Theorem dsi_convergence_table_rows :
  (forall Ns rows,
     dsi_convergence_table (Some Ns) = Ok rows <-> Forall2 is_row Ns rows) /\
  (forall Ns rows,
     dsi_convergence_table (Some Ns) = Ok rows -> length rows = length Ns) /\
  dsi_convergence_table None =
    dsi_convergence_table (Some [100; 1000; 10000; 100000; 1000000]).
Proof.
  assert (Hrows : forall Ns rows,
    dsi_convergence_table (Some Ns) = Ok rows <-> Forall2 is_row Ns rows).
  { intros Ns rows. unfold dsi_convergence_table.
    rewrite convergence_loop_rows. split.
    - intros (rows' & -> & Hall). exact Hall.
    - intros Hall. exists rows. split; [reflexivity | exact Hall]. }
  split; [exact Hrows |]. split; [| reflexivity].
  intros Ns rows Hok. apply Hrows in Hok.
  symmetry. eapply Forall2_length. exact Hok.
Qed.

End CoreProperties.

(** ** The models of NumPy against known values *)

(** The reference vector of MT19937: seeded with 5489, its 10000th
    output is 4123659995; seeded with 42, as [np.random.seed(42)] does,
    its first output is 1608637542. *)
Lemma mt19937_reference_outputs :
  fst (MT19937.mt19937_next
         (MT19937.discard (Z.to_nat 9999) (MT19937.mt19937_seed 5489)))
    = 4123659995%uint63 /\
  fst (MT19937.mt19937_next (MT19937.mt19937_seed 42)) = 1608637542%uint63.
Proof. split; vm_compute; reflexivity. Qed.

(** [np.random.seed(42); np.random.permutation(10)] *)
Lemma permutation_10_seed_42 :
  option_map fst
    ((let! _ := RandomState.seed 42 in RandomState.permutation 64 10)
       (MT19937.mt19937_seed 0))
  = Some (Ok [8; 1; 5; 0; 7; 2; 9; 4; 3; 6]).
Proof. vm_compute. reflexivity. Qed.

(** ** The depth of the pairwise split *)

(** Any fuel that covers the length gives the same sum: the split never
    runs out of it. *)
Lemma pairwise_sum_fuel_step {F : Type} `{Arith F} (fuel : nat) (a : list F) :
  pairwise_sum_fuel (S fuel) a =
    if (length a <? 8)%nat then sum_from (of_Z 0) a
    else if (length a <=? 128)%nat then block_sum a
    else
      let n2 := (length a / 2 - (length a / 2) mod 8)%nat in
      fadd (pairwise_sum_fuel fuel (take n2 a))
           (pairwise_sum_fuel fuel (drop n2 a)).
Proof. reflexivity. Qed.

Lemma pairwise_sum_fuel_enough {F : Type} `{Arith F} (f1 : nat) :
  forall (f2 : nat) (a : list F),
    (length a <= f1)%nat -> (length a <= f2)%nat ->
    pairwise_sum_fuel f1 a = pairwise_sum_fuel f2 a.
Proof.
  induction f1 as [| f1 IH]; intros f2 a H1 H2.
  - destruct a; [| simpl in H1; lia]. by destruct f2.
  - destruct f2 as [| f2].
    + destruct a; [| simpl in H2; lia]. reflexivity.
    + rewrite !pairwise_sum_fuel_step.
      destruct (Nat.ltb_spec (length a) 8) as [Hlt | Hge]; [reflexivity |].
      destruct (Nat.leb_spec (length a) 128) as [Hle | Hgt]; [reflexivity |].
      cbv zeta.
      pose proof (Nat.div_mod_eq (length a) 2) as Hq.
      pose proof (Nat.mod_upper_bound (length a) 2 ltac:(lia)) as Hr.
      pose proof (Nat.mod_upper_bound (length a / 2) 8 ltac:(lia)) as Hup.
      generalize dependent (length a / 2)%nat. intros q Hq Hup.
      generalize dependent (q mod 8)%nat. intros r Hup.
      generalize dependent (length a mod 2)%nat. intros r2 Hq Hr.
      f_equal; apply IH; rewrite ?length_take, ?length_drop; lia.
Qed.

(** ** What a pairwise sum inherits from its terms *)

Section Absorb.
Context {F : Type} `{Arith F}.
Variable P : F -> Prop.
Hypothesis P_add_l : forall x y, P x -> P (fadd x y).
Hypothesis P_add_r : forall x y, P y -> P (fadd x y).

Lemma sum_from_absorb (a : list F) :
  forall r, P r \/ Exists P a -> P (sum_from r a).
Proof.
  induction a as [| x a IH]; intros r [Hr | Ha]; simpl.
  - exact Hr.
  - inversion Ha.
  - apply IH. left. by apply P_add_l.
  - apply IH. inversion Ha; subst; [left; by apply P_add_r | by right].
Qed.

Lemma zip_with_absorb (r : list F) :
  forall x, length r = length x ->
    Exists P r \/ Exists P x -> Exists P (zip_with fadd r x).
Proof.
  induction r as [| r0 r IH]; intros [| x0 x] Hlen Hex; simplify_eq/=.
  - destruct Hex as [Hex | Hex]; inversion Hex.
  - destruct Hex as [Hex | Hex]; inversion Hex; subst.
    + left. by apply P_add_l.
    + right. apply IH; [done | by left].
    + left. by apply P_add_r.
    + right. apply IH; [done | by right].
Qed.

Lemma lanes_add_length (b : nat) :
  forall r a, length r = 8%nat -> (8 * b <= length a)%nat ->
    length (lanes_add r a b) = 8%nat.
Proof.
  induction b as [| b IH]; intros r a Hr Ha; simpl; [done |].
  apply IH.
  - rewrite length_zip_with, length_take. lia.
  - rewrite length_drop. lia.
Qed.

Lemma lanes_add_absorb (b : nat) :
  forall r a, length r = 8%nat -> (8 * b <= length a)%nat ->
    Exists P r \/ Exists P (take (8 * b) a) -> Exists P (lanes_add r a b).
Proof.
  induction b as [| b IH]; intros r a Hr Ha Hex; simpl.
  - destruct Hex as [Hex | Hex]; [done | inversion Hex].
  - apply IH.
    + rewrite length_zip_with, length_take. lia.
    + rewrite length_drop. lia.
    + replace (8 * S b)%nat with (8 + 8 * b)%nat in Hex by lia.
      rewrite <- take_take_drop, Exists_app in Hex.
      destruct Hex as [Hex | [Hex | Hex]].
      * left. apply zip_with_absorb; [rewrite length_take; lia | by left].
      * left. apply zip_with_absorb; [rewrite length_take; lia | by right].
      * by right.
Qed.

Lemma lanes_fold_absorb (r : list F) :
  length r = 8%nat -> Exists P r -> P (lanes_fold r).
Proof.
  intros Hr Hex.
  do 9 (destruct r as [| ? r]; try discriminate Hr).
  rewrite !Exists_cons, Exists_nil in Hex. simpl.
  intuition auto using P_add_l, P_add_r.
Qed.

Lemma block_sum_absorb (a : list F) :
  (8 <= length a)%nat -> Exists P a -> P (block_sum a).
Proof.
  intros Hlen Hex. unfold block_sum.
  assert (Hq : (1 <= length a / 8)%nat)
    by (apply Nat.div_le_lower_bound; lia).
  assert (Hle : (8 * (length a / 8) <= length a)%nat)
    by (apply Nat.Div0.mul_div_le).
  rewrite <- (take_drop (8 * (length a / 8)) a) in Hex at 1.
  rewrite Exists_app in Hex.
  apply sum_from_absorb. destruct Hex as [Hex | Hex]; [left | by right].
  apply lanes_fold_absorb.
  - apply lanes_add_length; [rewrite length_take; lia | rewrite length_drop; lia].
  - apply lanes_add_absorb;
      [rewrite length_take; lia | rewrite length_drop; lia |].
    replace (8 * (length a / 8))%nat
      with (8 + 8 * (length a / 8 - 1))%nat in Hex by lia.
    rewrite <- take_take_drop, Exists_app in Hex. exact Hex.
Qed.

Lemma pairwise_sum_fuel_absorb (fuel : nat) :
  forall a, Exists P a -> P (pairwise_sum_fuel fuel a).
Proof.
  induction fuel as [| fuel IH]; intros a Hex; simpl;
    destruct (Nat.ltb_spec (length a) 8) as [Hlt | Hge];
    try (apply sum_from_absorb; by right);
    destruct (Nat.leb_spec (length a) 128) as [Hle | Hgt];
    try (by apply block_sum_absorb).
  set (n2 := (length a / 2 - (length a / 2) mod 8)%nat).
  rewrite <- (take_drop n2 a), Exists_app in Hex.
  destruct Hex as [Hex | Hex]; [apply P_add_l | apply P_add_r]; by apply IH.
Qed.

Lemma add_reduce_absorb (a : list F) : Exists P a -> P (add_reduce a).
Proof. intros Hex. apply P_add_r. by apply pairwise_sum_fuel_absorb. Qed.

End Absorb.

(** ** The program state *)

Section ProgramProperties.
Context {F : Type} `{Arith F}.

Lemma heap_lookup_fresh (h : list (list F)) (a : list F) :
  (h ++ [a]) !!! length h = a.
Proof. by apply list_lookup_total_middle. Qed.

Lemma heap_insert_fresh (h : list (list F)) (a b : list F) :
  <[length h := b]> (h ++ [a]) = h ++ [b].
Proof.
  replace (length h) with (length h + 0)%nat at 1 by lia.
  by rewrite insert_app_r.
Qed.

(** Writing back the elements read changes nothing. *)
Lemma scatter_same (a : list F) (idx : list Z) :
  scatter a idx (map (fun i => a !!! Z.to_nat i) idx) = a.
Proof.
  unfold scatter. induction idx as [| i idx IH]; simpl; [done |].
  rewrite list_insert_id'; [exact IH |].
  intros Hi. by apply list_lookup_lookup_total_lt.
Qed.

(** [compute_perturbed_dsi], step by step. *)
Lemma compute_perturbed_dsi_run (fuel : nat) (N : Z) (frac mag : F) (w : world F) :
  compute_perturbed_dsi fuel N frac mag w =
    let R := np_array (py_range 1 (N + 1)) in
    match py_int (fmul (of_Z N) frac) with
    | Raise e => Some (Raise e, {| heap := heap w ++ [R]; rng := rng w |})
    | Ok n_perturb =>
        if 0 <? n_perturb then
          match RandomState.choice fuel N n_perturb
                  (MT19937.mt19937_seed (Uint63.of_Z 42)) with
          | None => None
          | Some (Raise e, g) =>
              Some (Raise e, {| heap := heap w ++ [R]; rng := g |})
          | Some (Ok idx, g) =>
              let R' := perturbed N idx (fadd (of_Z 1) mag) in
              Some (compute_dsi R', {| heap := heap w ++ [R'; R']; rng := g |})
          end
        else Some (compute_dsi R, {| heap := heap w ++ [R; R]; rng := rng w |})
    end.
Proof.
  unfold compute_perturbed_dsi, np_arange, imul_at, compute_dsi_at.
  unfold mbind, alloc, load, store, lift, ret, np_random, RandomState.seed.
  cbn [heap rng].
  destruct (py_int (fmul (of_Z N) frac)) as [n | e]; [| reflexivity].
  destruct (0 <? n).
  - destruct (RandomState.choice fuel N n _) as [[[idx | e] g] |];
      [| reflexivity | reflexivity].
    cbn [heap rng].
    rewrite heap_lookup_fresh, heap_insert_fresh, !heap_lookup_fresh.
    rewrite <- app_assoc. reflexivity.
  - cbn [heap rng]. rewrite !heap_lookup_fresh, <- app_assoc. reflexivity.
Qed.

(** C6: [compute_perturbed_dsi] returns the same value whatever the
    state it is called in, the state of the global generator included:
    the generator is reseeded with 42 before the indices are drawn. *)
Theorem compute_perturbed_dsi_deterministic
    (fuel : nat) (N : Z) (frac mag : F) (w1 w2 : world F) :
  option_map fst (compute_perturbed_dsi fuel N frac mag w1) =
  option_map fst (compute_perturbed_dsi fuel N frac mag w2).
Proof.
  rewrite !compute_perturbed_dsi_run. cbv zeta.
  destruct (py_int (fmul (of_Z N) frac)) as [n | e]; [| reflexivity].
  destruct (0 <? n); [| reflexivity].
  destruct (RandomState.choice fuel N n _) as [[[idx | e] g] |]; reflexivity.
Qed.

(** [compute_dsi] on a stored sequence: the value is that of
    [compute_dsi] on the contents, computed on a fresh copy. *)
Lemma compute_dsi_at_run (values : nat) (w : world F) :
  compute_dsi_at values w =
    Some (compute_dsi (heap w !!! values),
          {| heap := heap w ++ [heap w !!! values]; rng := rng w |}).
Proof.
  unfold compute_dsi_at, mbind, alloc, load, lift. cbn [heap rng].
  by rewrite heap_lookup_fresh.
Qed.

(** C9: neither [compute_dsi] nor [compute_perturbed_dsi] writes to a
    buffer that existed before the call: the buffers after the call are
    those before it, unchanged and at their addresses, followed by the
    ones the call allocated (the copy [arr]; the working copy [R], the
    only buffer that is scaled). *)
Theorem callers_buffers_unchanged :
  (forall values w r w',
     compute_dsi_at values w = Some (r, w') ->
     exists fresh, heap w' = heap w ++ fresh) /\
  (forall fuel N (frac mag : F) w r w',
     compute_perturbed_dsi fuel N frac mag w = Some (r, w') ->
     exists fresh, heap w' = heap w ++ fresh).
Proof.
  split.
  - intros values w r w' Hrun. rewrite compute_dsi_at_run in Hrun.
    injection Hrun as _ <-. by eexists.
  - intros fuel N frac mag w r w' Hrun.
    rewrite compute_perturbed_dsi_run in Hrun. cbv zeta in Hrun.
    destruct (py_int (fmul (of_Z N) frac)) as [n | e].
    + destruct (0 <? n).
      * destruct (RandomState.choice fuel N n _) as [[[idx | e] g] |];
          [| | discriminate]; injection Hrun as _ <-; by eexists.
      * injection Hrun as _ <-. by eexists.
    + injection Hrun as _ <-. by eexists.
Qed.

End ProgramProperties.

(** ** The generator raises nothing *)

Section NoRaise.
Context {S : Type}.

Lemma no_raise_ret {A : Type} (a : A) : no_raise (S := S) (ret a).
Proof. intros s e s'. unfold ret. congruence. Qed.

Lemma no_raise_bind {A B : Type} (m : M S A) (k : A -> M S B) :
  no_raise m -> (forall a, no_raise (k a)) -> no_raise (mbind m k).
Proof.
  intros Hm Hk s e s'. unfold mbind.
  destruct (m s) as [[[a | e0] s0] |] eqn:Hms.
  - apply Hk.
  - exfalso. by eapply Hm.
  - discriminate.
Qed.

End NoRaise.

Lemma reject_loop_no_raise (fuel : nat) next mask max :
  no_raise (RandomState.reject_loop fuel next mask max).
Proof.
  induction fuel as [| fuel IH]; simpl.
  - intros s e s'. discriminate.
  - apply no_raise_bind.
    + intros s e s'. unfold RandomState.draw. destruct (next s). congruence.
    + intros x. destruct (max <? Z.land x mask); [exact IH | apply no_raise_ret].
Qed.

Lemma random_interval_no_raise (fuel : nat) (max : Z) :
  no_raise (RandomState.random_interval fuel max).
Proof.
  unfold RandomState.random_interval.
  destruct (max =? 0); [apply no_raise_ret |].
  destruct (max <=? 4294967295); apply reject_loop_no_raise.
Qed.

Lemma shuffle_raw_no_raise (fuel steps : nat) :
  forall i x, no_raise (RandomState.shuffle_raw fuel steps i x).
Proof.
  induction steps as [| steps IH]; intros i x; simpl.
  - apply no_raise_ret.
  - apply no_raise_bind; [apply random_interval_no_raise |].
    intros j. apply IH.
Qed.

Lemma permutation_no_raise (fuel : nat) (n : Z) :
  no_raise (RandomState.permutation fuel n).
Proof.
  unfold RandomState.permutation.
  apply no_raise_bind; [apply shuffle_raw_no_raise |].
  intros x. apply no_raise_ret.
Qed.

(** A sample of [1 <= size <= a] elements is never refused. *)
Lemma choice_no_raise (fuel : nat) (a size : Z) :
  0 < size <= a -> no_raise (RandomState.choice fuel a size).
Proof.
  intros Hsize. unfold RandomState.choice.
  destruct (Z.leb_spec a 0) as [Ha | Ha]; [lia |]. cbn [andb].
  destruct (Z.ltb_spec a size) as [Hlt | Hge]; [lia |].
  destruct (Z.ltb_spec size 0) as [Hneg | Hpos]; [lia |].
  apply no_raise_bind; [apply permutation_no_raise |].
  intros idx. apply no_raise_ret.
Qed.

(** ** Binary64 facts *)

Module Binary64.

Lemma SFcompare_finite_refl s m e :
  SFcompare (S754_finite s m e) (S754_finite s m e) = Some Eq.
Proof.
  simpl. rewrite Z.compare_refl.
  assert (Hm : Pos.compare_cont Eq m m = Eq) by apply Pos.compare_refl.
  rewrite Hm. destruct s; reflexivity.
Qed.

Lemma nonfinite_spec x : nonfinite x = sf_nonfinite (Prim2SF x).
Proof.
  unfold nonfinite, is_nan, is_infinity.
  rewrite !FloatAxioms.eqb_spec, FloatAxioms.abs_spec.
  replace (Prim2SF infinity) with (S754_infinity false) by reflexivity.
  destruct (Prim2SF x) as [s | s | | s m e]; try reflexivity.
  - destruct s; reflexivity.
  - unfold SFeqb at 1. rewrite SFcompare_finite_refl. reflexivity.
Qed.

Lemma add_nonfinite_l x y : nonfinite x = true -> nonfinite (x + y) = true.
Proof.
  rewrite !nonfinite_spec, FloatAxioms.add_spec. unfold SF64add.
  destruct (Prim2SF x) as [s | s | | s m e]; try discriminate; intros _;
    destruct (Prim2SF y) as [s' | s' | | s' m' e']; try reflexivity;
    destruct s, s'; reflexivity.
Qed.

Lemma add_nonfinite_r x y : nonfinite y = true -> nonfinite (x + y) = true.
Proof.
  rewrite !nonfinite_spec, FloatAxioms.add_spec. unfold SF64add.
  destruct (Prim2SF y) as [s | s | | s m e]; try discriminate; intros _;
    destruct (Prim2SF x) as [s' | s' | | s' m' e']; try reflexivity;
    destruct s, s'; reflexivity.
Qed.

Lemma sub_nonfinite_r x y : nonfinite y = true -> nonfinite (x - y) = true.
Proof.
  rewrite !nonfinite_spec, FloatAxioms.sub_spec. unfold SF64sub.
  destruct (Prim2SF y) as [s | s | | s m e]; try discriminate; intros _;
    destruct (Prim2SF x) as [s' | s' | | s' m' e']; try reflexivity;
    destruct s, s'; reflexivity.
Qed.

Lemma mul_nonfinite_l x y : nonfinite x = true -> nonfinite (x * y) = true.
Proof.
  rewrite !nonfinite_spec, FloatAxioms.mul_spec. unfold SF64mul.
  destruct (Prim2SF x) as [s | s | | s m e]; try discriminate; intros _;
    destruct (Prim2SF y) as [s' | s' | | s' m' e']; reflexivity.
Qed.

Lemma div_nonfinite_l x y : nonfinite x = true -> nonfinite (x / y) = true.
Proof.
  rewrite !nonfinite_spec, FloatAxioms.div_spec. unfold SF64div.
  destruct (Prim2SF x) as [s | s | | s m e]; try discriminate; intros _;
    destruct (Prim2SF y) as [s' | s' | | s' m' e']; reflexivity.
Qed.

Lemma abs_nonfinite x : nonfinite x = true -> nonfinite (abs x) = true.
Proof.
  rewrite !nonfinite_spec, FloatAxioms.abs_spec.
  destruct (Prim2SF x) as [s | s | | s m e]; try discriminate; reflexivity.
Qed.

(** A NaN or an infinity does not compare equal to 0. *)
Lemma eqb_nonfinite_zero x : nonfinite x = true -> (x =? of_Z 0)%float = false.
Proof.
  rewrite nonfinite_spec, FloatAxioms.eqb_spec.
  replace (Prim2SF (of_Z 0)) with (S754_zero false) by reflexivity.
  destruct (Prim2SF x) as [s | s | | s m e]; try discriminate; intros _.
  - destruct s; reflexivity.
  - reflexivity.
Qed.

Lemma add_reduce_nonfinite (a : list float) :
  Exists P_nonfinite a -> P_nonfinite (add_reduce a).
Proof.
  apply (add_reduce_absorb P_nonfinite).
  - exact add_nonfinite_l.
  - exact add_nonfinite_r.
Qed.

Lemma Forall_Exists_nonempty {A : Type} (Q : A -> Prop) (l : list A) :
  (0 < length l)%nat -> Forall Q l -> Exists Q l.
Proof.
  destruct l as [| x l]; simpl; [lia |].
  intros _ Hall. inversion Hall; subst. by left.
Qed.

Lemma np_mean_nonfinite (a : list float) :
  Exists P_nonfinite a -> P_nonfinite (np_mean a).
Proof.
  intros Hex. apply div_nonfinite_l. by apply add_reduce_nonfinite.
Qed.

(** With a non-finite mean every deviation is non-finite. *)
Lemma deviations_nonfinite (a : list float) (m : float) :
  P_nonfinite m -> Forall P_nonfinite (map (fun v => fsub v m) a).
Proof.
  intros Hm. apply List.Forall_map, Forall_forall. intros v _.
  by apply sub_nonfinite_r.
Qed.

Lemma mad_of_nonfinite (a : list float) :
  (0 < length a)%nat -> Exists P_nonfinite a -> P_nonfinite (mad_of a).
Proof.
  intros Hlen Hex. unfold mad_of. apply np_mean_nonfinite.
  apply Forall_Exists_nonempty; [by rewrite !length_map |].
  apply List.Forall_map.
  eapply Forall_impl; [apply deviations_nonfinite, np_mean_nonfinite, Hex |].
  intros x Hx. by apply abs_nonfinite.
Qed.

Lemma np_var_nonfinite (a : list float) (ddof : Z) :
  (0 < length a)%nat -> Exists P_nonfinite a -> P_nonfinite (np_var a ddof).
Proof.
  intros Hlen Hex. unfold np_var. apply div_nonfinite_l, add_reduce_nonfinite.
  apply Forall_Exists_nonempty; [by rewrite !length_map |].
  apply List.Forall_map.
  eapply Forall_impl; [apply deviations_nonfinite, np_mean_nonfinite, Hex |].
  intros x Hx. by apply mul_nonfinite_l.
Qed.

(** C8: on a sequence of length at least 2 that holds a NaN or an
    infinity, [compute_dsi] raises nothing and returns a NaN or an
    infinity. *)
Theorem compute_dsi_nonfinite (a : list float) :
  (2 <= length a)%nat ->
  Exists (fun x => nonfinite x = true) a ->
  exists v, compute_dsi a = Ok v /\ nonfinite v = true.
Proof.
  intros Hlen Hex.
  assert (Hpos : (0 < length a)%nat) by lia.
  rewrite (compute_dsi_long a Hlen).
  pose proof (mad_of_nonfinite a Hpos Hex) as Hmad.
  change (feqb (mad_of a) (of_Z 0)) with (mad_of a =? of_Z 0)%float.
  rewrite (eqb_nonfinite_zero _ Hmad).
  eexists. split; [reflexivity |].
  apply div_nonfinite_l. by apply np_var_nonfinite.
Qed.

Lemma compute_dsi_nonfinite_witness :
  exists v, compute_dsi [infinity; 1%float] = Ok v /\ nonfinite v = true.
Proof.
  apply (compute_dsi_nonfinite [infinity; 1%float]).
  - simpl. lia.
  - left. reflexivity.
Defined.

(** Multiplication by 1 is exact. *)
Lemma digits2_pos_shift52 (m : positive) :
  Z.pos (digits2_pos (4503599627370496 * m)) = Z.pos (digits2_pos m) + 52.
Proof.
  change (4503599627370496 * m)%positive with (Pos.iter xO m 52).
  cbn [Pos.iter digits2_pos].
  rewrite !Pos2Z.inj_succ. lia.
Qed.

Lemma round_mul_one (s : bool) (m : positive) (e : Z) :
  bounded prec emax m e = true ->
  binary_round_aux prec emax s (Z.pos (m * 4503599627370496)) (e + -52) loc_Exact
  = S754_finite s m e.
Proof.
  intros Hb. unfold bounded, canonical_mantissa in Hb.
  apply andb_prop in Hb as [Hc Hle]. apply Z.eqb_eq in Hc.
  unfold binary_round_aux, shr_fexp, Zdigits2.
  rewrite Pos.mul_comm, digits2_pos_shift52.
  replace (Z.pos (digits2_pos m) + 52 + (e + -52))
    with (Z.pos (digits2_pos m) + e) by lia.
  rewrite Hc.
  replace (e - (e + -52)) with 52 by lia.
  change (4503599627370496 * m)%positive with (Pos.iter xO m 52).
  cbn [Pos.iter shr shr_record_of_loc SpecFloat.iter_pos shr_1 orb].
  cbn [shr_m loc_of_shr_record round_nearest_even Zdigits2].
  replace (e + -52 + 52) with e by lia.
  rewrite Hc, Z.sub_diag.
  cbn [shr shr_record_of_loc shr_m].
  rewrite Hle. reflexivity.
Qed.

Lemma mul_one_r (x : float) : (x * 1 = x)%float.
Proof.
  apply Prim2SF_inj. rewrite FloatAxioms.mul_spec.
  replace (Prim2SF 1) with (S754_finite false 4503599627370496 (-52))
    by reflexivity.
  pose proof (Prim2SF_valid x) as Hv.
  destruct (Prim2SF x) as [s | s | | s m e]; cbn [SF64mul SFmul].
  - destruct s; reflexivity.
  - destruct s; reflexivity.
  - reflexivity.
  - rewrite xorb_false_r. apply round_mul_one. exact Hv.
Qed.

Lemma perturbed_by_zero (N : Z) (idx : list Z) :
  perturbed N idx (fadd (of_Z 1) 0%float) = np_array (py_range 1 (N + 1)).
Proof.
  unfold perturbed. cbv zeta.
  replace (fadd (of_Z 1) 0%float) with 1%float by reflexivity.
  etransitivity; [| apply (scatter_same _ idx)].
  f_equal. apply map_ext. intros i. apply mul_one_r.
Qed.


End Binary64.

(** ** The closed form in exact arithmetic *)

Module Exact.
Local Open Scope Qc_scope.

Ltac qc_ops := cbn [fadd fsub fmul fdiv of_Z fabs feqb Qc_arith] in *.

Lemma total_app (l1 l2 : list Qc) : total (l1 ++ l2) = total l1 + total l2.
Proof.
  induction l1 as [| x l1 IH]; simpl; [ring |]. rewrite IH. ring.
Qed.

Lemma sum_from_total (a : list Qc) :
  forall r, sum_from r a = r + total a.
Proof.
  unfold sum_from.
  induction a as [| x a IH]; intros r; simpl; [ring |].
  rewrite IH. qc_ops. ring.
Qed.

Lemma total_zip_with (r : list Qc) :
  forall x, length r = length x ->
    total (zip_with fadd r x) = total r + total x.
Proof.
  induction r as [| r0 r IH]; intros [| x0 x] Hlen; simplify_eq/=; [ring |].
  rewrite IH by done. qc_ops. ring.
Qed.

Lemma lanes_add_total (b : nat) :
  forall r a, length r = 8%nat -> (8 * b <= length a)%nat ->
    total (lanes_add r a b) = total r + total (take (8 * b) a).
Proof.
  induction b as [| b IH]; intros r a Hr Ha; simpl lanes_add.
  - rewrite take_0. simpl. ring.
  - rewrite IH.
    + rewrite total_zip_with by (rewrite length_take; lia).
      replace (8 * S b)%nat with (8 + 8 * b)%nat by lia.
      rewrite <- take_take_drop, total_app. ring.
    + rewrite length_zip_with, length_take. lia.
    + rewrite length_drop. lia.
Qed.

Lemma lanes_fold_total (r : list Qc) :
  length r = 8%nat -> lanes_fold r = total r.
Proof.
  intros Hr. do 9 (destruct r as [| ? r]; try discriminate Hr).
  simpl. qc_ops. ring.
Qed.

Lemma block_sum_total (a : list Qc) :
  (8 <= length a)%nat -> block_sum a = total a.
Proof.
  intros Hlen. unfold block_sum.
  assert (Hq : (1 <= length a / 8)%nat)
    by (apply Nat.div_le_lower_bound; lia).
  assert (Hle : (8 * (length a / 8) <= length a)%nat)
    by (apply Nat.Div0.mul_div_le).
  rewrite sum_from_total, lanes_fold_total, lanes_add_total.
  - rewrite <- total_app, take_take_drop.
    replace (8 + 8 * (length a / 8 - 1))%nat with (8 * (length a / 8))%nat by lia.
    by rewrite <- total_app, take_drop.
  - rewrite length_take. lia.
  - rewrite length_drop. lia.
  - apply lanes_add_length; [rewrite length_take; lia | rewrite length_drop; lia].
Qed.

Lemma pairwise_sum_fuel_total (fuel : nat) :
  forall a : list Qc, pairwise_sum_fuel fuel a = total a.
Proof.
  induction fuel as [| fuel IH]; intros a; simpl;
    destruct (Nat.ltb_spec (length a) 8) as [Hlt | Hge];
    try (rewrite sum_from_total; qc_ops; change (Qc_of_Z 0) with 0; ring);
    destruct (Nat.leb_spec (length a) 128) as [Hle | Hgt];
    try (by apply block_sum_total).
  rewrite !IH. qc_ops. by rewrite <- total_app, take_drop.
Qed.

Lemma add_reduce_total (a : list Qc) : add_reduce a = total a.
Proof.
  unfold add_reduce, pairwise_sum. rewrite pairwise_sum_fuel_total.
  qc_ops. change (Qc_of_Z 0) with 0. ring.
Qed.

Lemma half_twice : (1 + 1) * half = 1.
Proof. by apply Qc_is_canon. Qed.

(** Order facts, through [Q]. *)
Ltac to_Q :=
  unfold Qclt, Qcle;
  cbn [this Qcminus Qcplus Qcopp Q2Qc Qc_of_Z half Qcdiv Qcmult Qcinv];
  rewrite ?Qred_correct.

Lemma sign_below (z m : Z) :
  (z <= m)%Z -> Qc_of_Z z - (Qc_of_Z m + half) < 0.
Proof. intros Hle. to_Q. rewrite Zle_Qle in Hle. lra. Qed.

Lemma sign_above (z m : Z) :
  (m + 1 <= z)%Z -> 0 <= Qc_of_Z z - (Qc_of_Z m + half).
Proof.
  intros Hle. to_Q. rewrite Zle_Qle, inject_Z_plus in Hle.
  change (inject_Z 1) with 1%Q in Hle. lra.
Qed.

Lemma Qc_abs_below (z m : Z) :
  (z <= m)%Z ->
  Qc_abs (Qc_of_Z z - (Qc_of_Z m + half)) = (Qc_of_Z m + half) - Qc_of_Z z.
Proof.
  intros Hle. unfold Qc_abs.
  destruct (Qclt_le_dec _ _) as [_ | Hge]; [ring |].
  exfalso. eapply Qcle_not_lt; [exact Hge | by apply sign_below].
Qed.

Lemma Qc_abs_above (z m : Z) :
  (m + 1 <= z)%Z ->
  Qc_abs (Qc_of_Z z - (Qc_of_Z m + half)) = Qc_of_Z z - (Qc_of_Z m + half).
Proof.
  intros Hle. unfold Qc_abs.
  destruct (Qclt_le_dec _ _) as [Hlt | _]; [| reflexivity].
  exfalso. eapply Qcle_not_lt; [by apply sign_above | exact Hlt].
Qed.

Lemma Qc_of_Z_add (a b : Z) : Qc_of_Z (a + b) = Qc_of_Z a + Qc_of_Z b.
Proof.
  unfold Qc_of_Z, Qcplus. apply Q2Qc_eq_iff. cbn [this Q2Qc].
  rewrite !Qred_correct, inject_Z_plus. reflexivity.
Qed.

Lemma Qc_of_Z_mul (a b : Z) : Qc_of_Z (a * b) = Qc_of_Z a * Qc_of_Z b.
Proof.
  unfold Qc_of_Z, Qcmult. apply Q2Qc_eq_iff. cbn [this Q2Qc].
  rewrite !Qred_correct, inject_Z_mult. reflexivity.
Qed.

Lemma Qc_of_Z_succ (n : nat) :
  Qc_of_Z (Z.of_nat (S n)) = Qc_of_Z (Z.of_nat n) + 1.
Proof. rewrite Nat2Z.inj_succ, <- Z.add_1_r. apply Qc_of_Z_add. Qed.

Lemma Qc_of_Z_neq_0 (z : Z) : z <> 0%Z -> Qc_of_Z z <> 0.
Proof.
  intros Hz Heq. apply Hz. unfold Qc_of_Z in Heq.
  apply Q2Qc_eq_iff in Heq. unfold Qeq in Heq. simpl in Heq. lia.
Qed.

Lemma length_range_from (n : nat) : forall a, length (range_from n a) = n.
Proof. induction n as [| n IH]; intros a; simpl; [done | by rewrite IH]. Qed.

Lemma range_from_app (n1 n2 : nat) :
  forall a, range_from (n1 + n2) a
            = range_from n1 a ++ range_from n2 (a + Z.of_nat n1).
Proof.
  induction n1 as [| n1 IH]; intros a; simpl.
  - by rewrite Z.add_0_r.
  - rewrite IH. do 3 f_equal. lia.
Qed.

Lemma range_from_bounds (n : nat) :
  forall a, Forall (fun z => (a <= z < a + Z.of_nat n)%Z) (range_from n a).
Proof.
  induction n as [| n IH]; intros a; simpl; constructor; [lia |].
  eapply Forall_impl; [apply IH |]. simpl. intros z Hz. lia.
Qed.

(** Sums of the deviations and of their squares over a range. *)
Lemma linear_total (c : Qc) (n : nat) :
  forall a,
    (1 + 1) * total (map (fun z => Qc_of_Z z - c) (range_from n a))
    = (1 + 1) * Qc_of_Z (Z.of_nat n) * (Qc_of_Z a - c)
      + Qc_of_Z (Z.of_nat n) * (Qc_of_Z (Z.of_nat n) - 1).
Proof.
  induction n as [| n IH]; intros a.
  - cbn [range_from map total fold_right]. change (Qc_of_Z (Z.of_nat 0)) with 0. ring.
  - cbn [range_from map total fold_right]. fold (total (map (fun z => Qc_of_Z z - c) (range_from n (a + 1)))).
    rewrite Qcmult_plus_distr_r, IH, Qc_of_Z_succ, Qc_of_Z_add.
    change (Qc_of_Z 1) with 1. ring.
Qed.

Lemma square_total (c : Qc) (n : nat) :
  forall a,
    let d := Qc_of_Z a - c in
    let qn := Qc_of_Z (Z.of_nat n) in
    (1 + 1 + 1 + 1 + 1 + 1)
      * total (map (fun z => (Qc_of_Z z - c) * (Qc_of_Z z - c)) (range_from n a))
    = (1 + 1 + 1 + 1 + 1 + 1) * qn * d * d
      + (1 + 1 + 1 + 1 + 1 + 1) * d * qn * (qn - 1) 
      + (qn - 1) * qn * ((1 + 1) * qn - 1).
Proof.
  induction n as [| n IH]; intros a; cbv zeta.
  - cbn [range_from map total fold_right]. change (Qc_of_Z (Z.of_nat 0)) with 0. ring.
  - cbn [range_from map total fold_right].
    fold (total (map (fun z => (Qc_of_Z z - c) * (Qc_of_Z z - c)) (range_from n (a + 1)))).
    rewrite Qcmult_plus_distr_r, IH, Qc_of_Z_succ, Qc_of_Z_add.
    change (Qc_of_Z 1) with 1. ring.
Qed.


Lemma total_opp {A : Type} (f : A -> Qc) (l : list A) :
  total (map (fun z => - f z) l) = - total (map f l).
Proof. induction l as [| x l IH]; simpl; [ring |]. rewrite IH. ring. Qed.

Lemma two_neq_0 : (1 + 1 : Qc) <> 0.
Proof. intros Heq. apply (f_equal this) in Heq. discriminate Heq. Qed.

Lemma half_eq : half = 1 / (1 + 1).
Proof. by apply Qc_is_canon. Qed.

Lemma halve (t x : Qc) : (1 + 1) * t = x -> t = x / (1 + 1).
Proof. intros <-. field. exact two_neq_0. Qed.

Section Even.
Variable m : nat.
Hypothesis m_pos : (1 <= m)%nat.

Local Abbreviation qm := (Qc_of_Z (Z.of_nat m)).
Local Abbreviation xs := (np_array (F := Qc) (py_range 1 (Z.of_nat (m + m) + 1))).

Lemma qm_neq_0 : qm <> 0.
Proof. apply Qc_of_Z_neq_0. lia. Qed.

Lemma qn_neq_0 : qm + qm <> 0.
Proof.
  intros Hz. apply qm_neq_0.
  assert (Hq : qm = (qm + qm) / (1 + 1)) by (field; exact two_neq_0).
  rewrite Hq, Hz. field. exact two_neq_0.
Qed.

Lemma xs_eq : xs = map Qc_of_Z (range_from (m + m) 1).
Proof.
  unfold np_array, py_range. qc_ops.
  replace (Z.to_nat (Z.of_nat (m + m) + 1 - 1)) with (m + m)%nat by lia.
  reflexivity.
Qed.

Lemma length_xs : length xs = (m + m)%nat.
Proof. by rewrite xs_eq, length_map, length_range_from. Qed.

Lemma qn_eq : Qc_of_Z (Z.of_nat (m + m)) = qm + qm.
Proof. rewrite Nat2Z.inj_add. apply Qc_of_Z_add. Qed.

Lemma np_mean_xs : np_mean xs = qm + half.
Proof.
  unfold np_mean. rewrite add_reduce_total, length_xs. qc_ops.
  rewrite xs_eq, qn_eq.
  assert (Ht := linear_total 0 (m + m) 1).
  rewrite qn_eq in Ht. change (Qc_of_Z 1) with 1 in Ht.
  rewrite (map_ext _ Qc_of_Z) in Ht by (intros z; ring).
  apply halve in Ht. rewrite Ht, half_eq. field.
  split; [exact two_neq_0 |].
  intros Hz. apply qm_neq_0. 
  assert (Hq : qm = (qm + qm) / (1 + 1)) by (field; exact two_neq_0).
  rewrite Hq, Hz. field. exact two_neq_0.
Qed.


Lemma np_var_xs :
  np_var xs 0 = ((qm + qm) * (qm + qm) - 1) / (1 + 1 + 1 + 1 + 1 + 1 + 1 + 1 + 1 + 1 + 1 + 1).
Proof.
  unfold np_var.
  change (fdiv (add_reduce xs) (of_Z (Z.of_nat (length xs)))) with (np_mean xs).
  rewrite np_mean_xs, add_reduce_total, length_xs, Z.sub_0_r, Z.max_l by lia.
  qc_ops. rewrite qn_eq, xs_eq, !map_map.
  assert (Ht := square_total (qm + half) (m + m) 1). cbv zeta in Ht.
  rewrite qn_eq in Ht. change (Qc_of_Z 1) with 1 in Ht.
  assert (Hs : forall t x : Qc,
             (1 + 1 + 1 + 1 + 1 + 1) * t = x -> t = x / (1 + 1 + 1 + 1 + 1 + 1)).
  { intros t x <-. field. intros Heq. apply (f_equal this) in Heq. discriminate Heq. }
  apply Hs in Ht. rewrite Ht, half_eq. field.
  repeat split; try exact two_neq_0; try exact qn_neq_0;
    try (intros Heq; apply (f_equal this) in Heq; discriminate Heq).
Qed.

Lemma abs_total_xs :
  total (map (fun z => Qc_abs (Qc_of_Z z - (qm + half))) (range_from (m + m) 1))
  = qm * qm.
Proof.
  rewrite range_from_app, map_app, total_app.
  rewrite (map_ext_Forall (fun z => Qc_abs (Qc_of_Z z - (qm + half)))
             (fun z => - (Qc_of_Z z - (qm + half))) (l := range_from m 1)).
  2:{ eapply Forall_impl; [apply range_from_bounds |]. simpl. intros z Hz.
      rewrite Qc_abs_below by lia. ring. }
  rewrite (map_ext_Forall (fun z => Qc_abs (Qc_of_Z z - (qm + half)))
             (fun z => Qc_of_Z z - (qm + half))
             (l := range_from m (1 + Z.of_nat m))).
  2:{ eapply Forall_impl; [apply range_from_bounds |]. simpl. intros z Hz.
      by rewrite Qc_abs_above by lia. }
  rewrite total_opp.
  assert (H1 := linear_total (qm + half) m 1).
  assert (H2 := linear_total (qm + half) m (1 + Z.of_nat m)).
  apply halve in H1. apply halve in H2. rewrite H1, H2.
  rewrite Qc_of_Z_add. change (Qc_of_Z 1) with 1.
  field. exact two_neq_0.
Qed.

Lemma mad_of_xs : mad_of xs = qm / (1 + 1).
Proof.
  unfold mad_of. rewrite np_mean_xs. unfold np_mean.
  rewrite add_reduce_total, !length_map, length_xs. qc_ops.
  rewrite qn_eq, xs_eq, !map_map, abs_total_xs.
  field. split; [exact two_neq_0 | exact qn_neq_0].
Qed.

Lemma compute_dsi_xs :
  compute_dsi xs = compute_dsi_theoretical (Z.of_nat (m + m)).
Proof.
  rewrite compute_dsi_long by (rewrite length_xs; lia).
  rewrite mad_of_xs, np_var_xs. qc_ops.
  destruct (Qc_eq_bool (qm / (1 + 1)) (Qc_of_Z 0)) eqn:Hz.
  - exfalso. apply Qc_eq_bool_correct in Hz. apply qm_neq_0.
    assert (Hq : qm = (qm / (1 + 1)) * (1 + 1)) by (field; exact two_neq_0).
    rewrite Hq, Hz. change (Qc_of_Z 0) with 0. ring.
  - unfold compute_dsi_theoretical. qc_ops.
    destruct (Z.eqb_spec (Z.of_nat (m + m) ^ 2) 0) as [Hsq | _]; [nia |].
    f_equal. unfold pow2. qc_ops.
    replace (Z.of_nat (m + m) ^ 2)%Z with (Z.of_nat (m + m) * Z.of_nat (m + m))%Z by lia.
    rewrite Qc_of_Z_mul, qn_eq.
    replace (Qc_of_Z 4) with (1 + 1 + 1 + 1) by (by apply Qc_is_canon).
    replace (Qc_of_Z 3) with (1 + 1 + 1) by (by apply Qc_is_canon).
    change (Qc_of_Z 1) with 1.
    field.
    repeat split; try exact two_neq_0; try exact qm_neq_0; try exact qn_neq_0;
      try (intros Heq; apply (f_equal this) in Heq; discriminate Heq).
Qed.

End Even.

Lemma compute_dsi_closed_form_even (N : Z) :
  (2 <= N)%Z -> Z.even N = true ->
  compute_dsi (F := Qc) (np_array (py_range 1 (N + 1))) = compute_dsi_theoretical N.
Proof.
  intros HN Heven. apply Z.even_spec in Heven as [k Hk].
  replace N with (Z.of_nat (Z.to_nat k + Z.to_nat k)) by lia.
  apply compute_dsi_xs. lia.
Qed.
End Exact.

(** ** Worked examples *)

Module Examples.

(** An exact result, compared as a fraction. *)
Lemma result_Qc_eq (r : result Qc) (q : Q) :
  match r with Ok x => Qeq_bool x q | Raise _ => false end = true ->
  r = Ok (Q2Qc q).
Proof.
  destruct r as [x | e]; [| discriminate]. intros Heq. f_equal.
  apply Qc_is_canon. apply Qeq_bool_eq in Heq.
  cbn [this Q2Qc]. by rewrite Qred_correct.
Qed.

(** The DSI of [[1, 2, 3, 4, 5]] in binary64. *)
Lemma compute_dsi_1_to_5 :
  compute_dsi (np_array [1; 2; 3; 4; 5]) = Ok 1.3888888888888888%float.
Proof. vm_compute. reflexivity. Qed.

(** C4, as stated, fails: [compute_dsi([1, 2, 3, 4, 5])] is not 1.2. *)
Lemma compute_dsi_1_to_5_is_not_1_2 :
  compute_dsi (F := float) (np_array [1; 2; 3; 4; 5]) <> Ok 1.2%float.
Proof.
  rewrite compute_dsi_1_to_5. intros Heq.
  assert (Hv : 1.3888888888888888%float = 1.2%float) by congruence.
  apply FloatAxioms.Leibniz.eqb_spec in Hv. vm_compute in Hv. discriminate.
Qed.

(** C4, amended: [compute_dsi([1, 2, 3, 4, 5])] is 25/18, the variance 2
    over the square of the mean absolute deviation 6/5; in binary64 the
    value returned is 1.3888888888888888, and it is the mean absolute
    deviation that is 1.2. *)
Theorem compute_dsi_1_to_5_value :
  compute_dsi (F := Qc) (np_array [1; 2; 3; 4; 5]) = Ok (Q2Qc (25 # 18)) /\
  np_var (F := Qc) (np_array [1; 2; 3; 4; 5]) 0 = Q2Qc 2 /\
  mad_of (F := Qc) (np_array [1; 2; 3; 4; 5]) = Q2Qc (6 # 5) /\
  compute_dsi (F := float) (np_array [1; 2; 3; 4; 5])
    = Ok 1.3888888888888888%float /\
  mad_of (F := float) (np_array [1; 2; 3; 4; 5]) = 1.2%float.
Proof.
  split; [| split; [| split; [| split]]].
  - apply result_Qc_eq. vm_compute. reflexivity.
  - by apply Qc_is_canon.
  - by apply Qc_is_canon.
  - exact compute_dsi_1_to_5.
  - vm_compute. reflexivity.
Qed.

(** *** The closed form against [compute_dsi] *)

Lemma In_range_from (n : nat) :
  forall a z, a <= z < a + Z.of_nat n -> In z (range_from n a).
Proof.
  induction n as [| n IH]; intros a z Hz; simpl; [lia |].
  destruct (Z.eq_dec a z) as [-> | Hne]; [by left | right].
  apply IH. lia.
Qed.

(** In binary64 the check passes for every even [N] up to 200. *)
Lemma within_tolerance_small_even (N : Z) :
  2 <= N <= 200 -> Z.even N = true -> within_tolerance N = true.
Proof.
  intros HN Heven. apply Z.even_spec in Heven as [k ->].
  assert (Hall : forallb within_tolerance (map (Z.mul 2) (py_range 1 101)) = true)
    by (vm_compute; reflexivity).
  rewrite forallb_forall in Hall. apply Hall.
  apply in_map. apply In_range_from. lia.
Qed.

(** At [N = 3] the DSI is 3/2 and the formula gives 32/27. *)
Lemma compute_dsi_1_to_3 :
  compute_dsi (F := float) (np_array (py_range 1 4)) = Ok 1.5%float /\
  compute_dsi_theoretical (F := float) 3 = Ok 1.1851851851851851%float /\
  compute_dsi (F := Qc) (np_array (py_range 1 4)) = Ok (Q2Qc (3 # 2)) /\
  compute_dsi_theoretical (F := Qc) 3 = Ok (Q2Qc (32 # 27)).
Proof.
  split; [| split; [| split]].
  - vm_compute. reflexivity.
  - vm_compute. reflexivity.
  - apply result_Qc_eq. vm_compute. reflexivity.
  - apply result_Qc_eq. vm_compute. reflexivity.
Qed.





(** C9 on a run that perturbs half of [{1, ..., 10}]. *)
Lemma callers_buffers_unchanged_witness :
  exists r w',
    compute_perturbed_dsi sample_fuel 10 0.5%float 0.5%float sample_world = Some (r, w') /\
    exists fresh, heap w' = heap sample_world ++ fresh.
Proof.
  destruct (compute_perturbed_dsi sample_fuel 10 0.5%float 0.5%float sample_world)
    as [[r w'] |] eqn:Hrun.
  - exists r, w'. split; [reflexivity |].
    exact (proj2 callers_buffers_unchanged sample_fuel 10 _ _ sample_world r w' Hrun).
  - vm_compute in Hrun. discriminate.
Defined.


Lemma perturbed_dsi_at_unperturbed (w : world float) :
  perturbed_dsi_at 0%float w = Some (Ok 1.3333333199999999%float).
Proof.
  unfold perturbed_dsi_at, value. rewrite compute_perturbed_dsi_run.
  vm_compute. reflexivity.
Qed.

(** One element perturbed (fraction 0.0001, index 6252 of the
    permutation, value 6253): the DSI drops under the baseline. *)
Lemma perturbed_dsi_at_one_element (w : world float) :
  perturbed_dsi_at 0.0001%float w = Some (Ok 1.3332815132913645%float).
Proof.
  unfold perturbed_dsi_at, value. rewrite compute_perturbed_dsi_run.
  vm_compute. reflexivity.
Qed.



End Examples.

(** * Further properties of the code *)

(** ** [compute_dsi_theoretical] and the closed forms *)

Section TheoreticalErrors.
Context {F : Type} `{Arith F}.

(** X1: [compute_dsi_theoretical] raises [ZeroDivisionError] at [N = 0]
    and nowhere else, and depends on [N] through [N ** 2] only: [-N]
    gives what [N] gives. *)
Theorem compute_dsi_theoretical_errors (N : Z) :
  (compute_dsi_theoretical (F := F) N = Raise ZeroDivisionError <-> N = 0) /\
  (N <> 0 -> exists v, compute_dsi_theoretical (F := F) N = Ok v) /\
  compute_dsi_theoretical (F := F) (- N) = compute_dsi_theoretical N.
Proof.
  unfold compute_dsi_theoretical.
  replace ((- N) ^ 2) with (N ^ 2) by lia.
  destruct (Z.eqb_spec (N ^ 2) 0) as [Hz | Hnz].
  - assert (N = 0) by nia. repeat split; try done.
  - assert (N <> 0) by (intros ->; apply Hnz; reflexivity).
    repeat split; try done. intros _. by eexists.
Qed.

End TheoreticalErrors.

Module ClosedForm.
Import Exact.
Local Open Scope Qc_scope.

(** A numeral of [Qc] is not 0. *)
Ltac qc_neq := intros Heq; apply (f_equal this) in Heq; discriminate Heq.

Lemma four_thirds_eq : four_thirds = Qc_of_Z 4 / Qc_of_Z 3.
Proof. by apply Qc_is_canon. Qed.

Lemma three_neq_0 : (1 + 1 + 1 : Qc) <> 0.
Proof. intros Heq. apply (f_equal this) in Heq. discriminate Heq. Qed.

Lemma Qc_of_Z_3 : Qc_of_Z 3 = 1 + 1 + 1.
Proof. by apply Qc_is_canon. Qed.

Lemma Qc_of_Z_4 : Qc_of_Z 4 = 1 + 1 + 1 + 1.
Proof. by apply Qc_is_canon. Qed.

Lemma Qc_of_Z_sq (N : Z) : Qc_of_Z (N ^ 2) = Qc_of_Z N * Qc_of_Z N.
Proof. replace (N ^ 2)%Z with (N * N)%Z by lia. apply Qc_of_Z_mul. Qed.

Lemma Qc_of_Z_lt (a b : Z) : (a < b)%Z -> Qc_of_Z a < Qc_of_Z b.
Proof. intros Hlt. to_Q. by rewrite <- Zlt_Qlt. Qed.

Lemma Qc_of_Z_le (a b : Z) : (a <= b)%Z -> Qc_of_Z a <= Qc_of_Z b.
Proof. intros Hle. to_Q. by rewrite <- Zle_Qle. Qed.

(** [compute_dsi_theoretical] in exact arithmetic. *)
Lemma theoretical_exact (N : Z) :
  N <> 0%Z ->
  compute_dsi_theoretical (F := Qc) N
  = Ok (four_thirds - four_thirds / (Qc_of_Z N * Qc_of_Z N)).
Proof.
  intros HN. unfold compute_dsi_theoretical.
  destruct (Z.eqb_spec (N ^ 2) 0) as [Hz | _]; [nia |].
  f_equal. qc_ops. rewrite four_thirds_eq, Qc_of_Z_sq, Qc_of_Z_3, Qc_of_Z_4.
  change (Qc_of_Z 1) with 1. field.
  repeat split; try (by apply Qc_of_Z_neq_0); qc_neq.
Qed.

(** The deviation from 4/3 is [(4/3) / N^2]. *)
Lemma theoretical_deviation (N : Z) (v : Qc) :
  compute_dsi_theoretical (F := Qc) N = Ok v ->
  N <> 0%Z /\ four_thirds - v = four_thirds / (Qc_of_Z N * Qc_of_Z N).
Proof.
  intros Hv. assert (HN : N <> 0%Z).
  { intros ->. discriminate Hv. }
  split; [exact HN |]. rewrite theoretical_exact in Hv by exact HN.
  injection Hv as <-. ring.
Qed.

Lemma inv_sq_decreasing (N M : Z) :
  (1 <= N < M)%Z ->
  four_thirds / (Qc_of_Z M * Qc_of_Z M) < four_thirds / (Qc_of_Z N * Qc_of_Z N)
  /\ 0 < four_thirds / (Qc_of_Z M * Qc_of_Z M).
Proof.
  intros HNM.
  assert (HN : (0 < inject_Z (N * N))%Q) by (unfold Qlt; simpl; nia).
  assert (HM : (0 < inject_Z (M * M))%Q) by (unfold Qlt; simpl; nia).
  assert (Hlt : (inject_Z (N * N) < inject_Z (M * M))%Q) by (unfold Qlt; simpl; nia).
  rewrite <- !Qc_of_Z_mul. unfold four_thirds. to_Q.
  apply Qinv_lt_contravar in Hlt; [| exact HN | exact HM].
  apply Qinv_lt_0_compat in HM.
  split.
  - apply Qmult_lt_l; [reflexivity | exact Hlt].
  - apply Qmult_lt_0_compat; [reflexivity | exact HM].
Qed.

Lemma sign_below_int (z c : Z) :
  (z < c)%Z -> Qc_of_Z z - Qc_of_Z c < 0.
Proof. intros Hlt. to_Q. rewrite Zlt_Qlt in Hlt. lra. Qed.

Lemma sign_above_int (z c : Z) :
  (c <= z)%Z -> 0 <= Qc_of_Z z - Qc_of_Z c.
Proof. intros Hle. to_Q. rewrite Zle_Qle in Hle. lra. Qed.

Lemma Qc_abs_neg (x : Qc) : x < 0 -> Qc_abs x = - x.
Proof.
  intros Hx. unfold Qc_abs.
  destruct (Qclt_le_dec _ _) as [_ | Hge]; [reflexivity |].
  exfalso. by eapply Qcle_not_lt.
Qed.

Lemma Qc_abs_nonneg (x : Qc) : 0 <= x -> Qc_abs x = x.
Proof.
  intros Hx. unfold Qc_abs.
  destruct (Qclt_le_dec _ _) as [Hlt | _]; [| reflexivity].
  exfalso. by eapply Qcle_not_lt.
Qed.

Section Odd.
Variable m : nat.
Hypothesis m_pos : (1 <= m)%nat.

Local Abbreviation qm := (Qc_of_Z (Z.of_nat m)).
Local Abbreviation n := (m + (1 + m))%nat.
Local Abbreviation xs := (np_array (F := Qc) (py_range 1 (Z.of_nat n + 1))).

Lemma odd_qm_neq_0 : qm <> 0.
Proof. apply Qc_of_Z_neq_0. lia. Qed.

Lemma odd_qm1_neq_0 : qm + 1 <> 0.
Proof.
  change 1 with (Qc_of_Z 1). rewrite <- Qc_of_Z_add.
  apply Qc_of_Z_neq_0. lia.
Qed.

Lemma odd_qn_eq : Qc_of_Z (Z.of_nat n) = qm + qm + 1.
Proof.
  replace (Z.of_nat n) with (Z.of_nat m + Z.of_nat m + 1)%Z by lia.
  rewrite !Qc_of_Z_add. reflexivity.
Qed.

Lemma odd_qn_neq_0 : qm + qm + 1 <> 0.
Proof. rewrite <- odd_qn_eq. apply Qc_of_Z_neq_0. lia. Qed.

Lemma odd_xs_eq : xs = map Qc_of_Z (range_from n 1).
Proof.
  unfold np_array, py_range. qc_ops.
  replace (Z.to_nat (Z.of_nat n + 1 - 1)) with n by lia.
  reflexivity.
Qed.

Lemma odd_length_xs : length xs = n.
Proof. by rewrite odd_xs_eq, length_map, length_range_from. Qed.

Lemma odd_np_mean_xs : np_mean xs = qm + 1.
Proof.
  unfold np_mean. rewrite add_reduce_total, odd_length_xs. qc_ops.
  rewrite odd_xs_eq, odd_qn_eq.
  assert (Ht := linear_total 0 n 1).
  rewrite odd_qn_eq in Ht. change (Qc_of_Z 1) with 1 in Ht.
  rewrite (map_ext _ Qc_of_Z) in Ht by (intros z; ring).
  apply halve in Ht. rewrite Ht. field.
  split; [exact two_neq_0 | exact odd_qn_neq_0].
Qed.

Lemma odd_np_var_xs : np_var xs 0 = qm * (qm + 1) / (1 + 1 + 1).
Proof.
  unfold np_var.
  change (fdiv (add_reduce xs) (of_Z (Z.of_nat (length xs)))) with (np_mean xs).
  rewrite odd_np_mean_xs, add_reduce_total, odd_length_xs, Z.sub_0_r, Z.max_l by lia.
  qc_ops. rewrite odd_qn_eq, odd_xs_eq, !map_map.
  assert (Ht := square_total (qm + 1) n 1). cbv zeta in Ht.
  rewrite odd_qn_eq in Ht. change (Qc_of_Z 1) with 1 in Ht.
  assert (Hs : forall t x : Qc,
             (1 + 1 + 1 + 1 + 1 + 1) * t = x -> t = x / (1 + 1 + 1 + 1 + 1 + 1)).
  { intros t x <-. field. qc_neq. }
  apply Hs in Ht. rewrite Ht. field.
  repeat split; try exact odd_qn_neq_0; qc_neq.
Qed.

Lemma odd_abs_total_xs :
  total (map (fun z => Qc_abs (Qc_of_Z z - (qm + 1))) (range_from n 1))
  = qm * (qm + 1).
Proof.
  assert (Hc : qm + 1 = Qc_of_Z (Z.of_nat m + 1)).
  { rewrite Qc_of_Z_add. reflexivity. }
  rewrite range_from_app, map_app, total_app.
  rewrite (map_ext_Forall (fun z => Qc_abs (Qc_of_Z z - (qm + 1)))
             (fun z => - (Qc_of_Z z - (qm + 1))) (l := range_from m 1)).
  2:{ eapply Forall_impl; [apply range_from_bounds |]. simpl. intros z Hz.
      rewrite Hc. apply Qc_abs_neg, sign_below_int. lia. }
  rewrite (map_ext_Forall (fun z => Qc_abs (Qc_of_Z z - (qm + 1)))
             (fun z => Qc_of_Z z - (qm + 1))
             (l := range_from (1 + m) (1 + Z.of_nat m))).
  2:{ eapply Forall_impl; [apply range_from_bounds |]. simpl. intros z Hz.
      rewrite Hc. apply Qc_abs_nonneg, sign_above_int. lia. }
  rewrite total_opp.
  assert (H1 := linear_total (qm + 1) m 1).
  assert (H2 := linear_total (qm + 1) (1 + m) (1 + Z.of_nat m)).
  apply halve in H1. apply halve in H2. rewrite H1, H2.
  replace (Z.of_nat (1 + m)) with (1 + Z.of_nat m)%Z by lia.
  rewrite !Qc_of_Z_add. change (Qc_of_Z 1) with 1.
  field. exact two_neq_0.
Qed.

Lemma odd_mad_of_xs : mad_of xs = qm * (qm + 1) / (qm + qm + 1).
Proof.
  unfold mad_of. rewrite odd_np_mean_xs. unfold np_mean.
  rewrite add_reduce_total, !length_map, odd_length_xs. qc_ops.
  rewrite odd_qn_eq, odd_xs_eq, !map_map, odd_abs_total_xs.
  reflexivity.
Qed.

Lemma odd_compute_dsi_xs : compute_dsi xs = Ok (dsi_odd (Z.of_nat n)).
Proof.
  rewrite compute_dsi_long by (rewrite odd_length_xs; lia).
  rewrite odd_mad_of_xs, odd_np_var_xs. qc_ops.
  destruct (Qc_eq_bool (qm * (qm + 1) / (qm + qm + 1)) (Qc_of_Z 0)) eqn:Hz.
  - exfalso. apply Qc_eq_bool_correct in Hz. change (Qc_of_Z 0) with 0 in Hz.
    assert (Hq : qm * (qm + 1) = qm * (qm + 1) / (qm + qm + 1) * (qm + qm + 1))
      by (field; exact odd_qn_neq_0).
    rewrite Hz in Hq.
    assert (Hq' : qm * (qm + 1) = 0) by (rewrite Hq; ring).
    apply Qcmult_integral in Hq'. destruct Hq' as [Hq' | Hq'].
    + by apply odd_qm_neq_0.
    + by apply odd_qm1_neq_0.
  - f_equal. unfold pow2, dsi_odd. qc_ops.
    replace (Z.of_nat n ^ 2 - 1)%Z
      with (4 * (Z.of_nat m * (Z.of_nat m + 1)))%Z by lia.
    rewrite Qc_of_Z_sq, odd_qn_eq, !Qc_of_Z_mul, Qc_of_Z_add, four_thirds_eq.
    rewrite Qc_of_Z_3, Qc_of_Z_4. change (Qc_of_Z 1) with 1.
    field.
    repeat split; try exact odd_qn_neq_0; try exact odd_qm_neq_0;
      try exact odd_qm1_neq_0; qc_neq.
Qed.

End Odd.

Lemma compute_dsi_closed_form_odd (N : Z) :
  (3 <= N)%Z -> Z.odd N = true ->
  compute_dsi (F := Qc) (np_array (py_range 1 (N + 1))) = Ok (dsi_odd N).
Proof.
  intros HN Hodd. apply Z.odd_spec in Hodd as [k Hk].
  replace N with (Z.of_nat (Z.to_nat k + (1 + Z.to_nat k))) by lia.
  apply odd_compute_dsi_xs. lia.
Qed.

(** Above 4/3 for odd [N]. *)
Lemma dsi_odd_above (N : Z) : (2 <= N)%Z -> four_thirds < dsi_odd N.
Proof.
  intros HN. unfold dsi_odd, four_thirds.
  assert (H1 : (0 < inject_Z (N ^ 2 - 1))%Q) by (unfold Qlt; simpl; nia).
  assert (H2 : (inject_Z (N ^ 2 - 1) < inject_Z (N ^ 2))%Q)
    by (unfold Qlt; simpl; nia).
  to_Q.
  assert (H3 : (1 < inject_Z (N ^ 2) * / inject_Z (N ^ 2 - 1))%Q).
  { apply Qlt_shift_div_l; [exact H1 |]. by rewrite Qmult_1_l. }
  rewrite <- (Qmult_1_r (4 # 3)) at 1.
  apply Qmult_lt_l; [reflexivity | exact H3].
Qed.

(** On [{1, ..., N}], [N >= 2], [compute_dsi] returns a value. *)
Lemma compute_dsi_range_ok (N : Z) :
  (2 <= N)%Z ->
  exists v, compute_dsi (F := Qc) (np_array (py_range 1 (N + 1))) = Ok v.
Proof.
  intros HN. destruct (Z.even N) eqn:Heven.
  - rewrite compute_dsi_closed_form_even by done.
    rewrite theoretical_exact by lia. by eexists.
  - assert (Hodd : Z.odd N = true) by (by rewrite <- Z.negb_even, Heven).
    assert (H3 : (3 <= N)%Z).
    { destruct (Z.eq_dec N 2%Z) as [-> | Hne]; [discriminate Heven | lia]. }
    rewrite compute_dsi_closed_form_odd by done. by eexists.
Qed.

End ClosedForm.

Section Table.
Context {F : Type} `{Arith F}.

Lemma length_np_array_range (N : Z) :
  length (np_array (F := F) (py_range 1 (N + 1))) = Z.to_nat N.
Proof.
  unfold np_array, py_range. rewrite length_map, Exact.length_range_from.
  f_equal. lia.
Qed.

Lemma compute_dsi_range_short (N : Z) :
  N < 2 -> compute_dsi (F := F) (np_array (py_range 1 (N + 1))) = Raise InvalidInput.
Proof.
  intros HN. apply compute_dsi_short. rewrite length_np_array_range. lia.
Qed.

(** X2: a table is returned only when every [N] is at least 2: an [N]
    under 2 makes [compute_dsi] raise, and the exception ends the loop. *)
Theorem dsi_convergence_table_needs_two (Ns : list Z) (rows : list (Z * F * F)) :
  dsi_convergence_table (Some Ns) = Ok rows -> Forall (fun N => 2 <= N) Ns.
Proof.
  unfold dsi_convergence_table. rewrite convergence_loop_rows.
  intros (rows' & _ & Hall). clear rows.
  induction Hall as [| N row Ns rows Hrow _ IH]; constructor; [| exact IH].
  destruct Hrow as (dsi & Hdsi & _).
  destruct (Z.lt_ge_cases N 2) as [Hlt | Hge]; [| exact Hge].
  rewrite compute_dsi_range_short in Hdsi by exact Hlt. discriminate.
Qed.

End Table.

Lemma dsi_convergence_table_needs_two_witness :
  Forall (fun N => 2 <= N) [2; 3; 10].
Proof.
  apply (dsi_convergence_table_needs_two (F := float) [2; 3; 10]
           [(2, 1%float, 0.33333333333333326%float);
            (3, 1.5%float, 0.16666666666666674%float);
            (10, 1.3200000000000001%float, 0.013333333333333197%float)]).
  vm_compute. reflexivity.
Defined.

Module ExactTable.
Import Exact ClosedForm.
Local Open Scope Qc_scope.

(** X3: in exact arithmetic the table is returned exactly when every [N]
    is at least 2, and the first [N] under 2 otherwise raises
    [InvalidInput]: [{1, ..., N}] is never degenerate. *)
Theorem dsi_convergence_table_exact (Ns : list Z) :
  (Forall (fun N => (2 <= N)%Z) Ns ->
     exists rows, dsi_convergence_table (F := Qc) (Some Ns) = Ok rows) /\
  (~ Forall (fun N => (2 <= N)%Z) Ns ->
     dsi_convergence_table (F := Qc) (Some Ns) = Raise InvalidInput).
Proof.
  unfold dsi_convergence_table. generalize (@nil (Z * Qc * Qc)).
  induction Ns as [| N Ns IH]; intros acc; cbn [convergence_loop].
  - split; [by eexists | intros Hn; destruct Hn; constructor].
  - destruct (Z.lt_ge_cases N 2) as [Hlt | Hge].
    + rewrite compute_dsi_range_short by exact Hlt. cbn [bind].
      split; [| done]. intros Hall. inversion Hall; subst. lia.
    + destruct (compute_dsi_range_ok N Hge) as [v ->]. cbn [bind].
      destruct (IH (acc ++ [(N, v, fabs (fsub v (fdiv (of_Z 4) (of_Z 3))))]))
        as [IH1 IH2].
      split.
      * intros Hall. inversion Hall; subst. by apply IH1.
      * intros Hn. apply IH2. intros Hall. apply Hn. by constructor.
Qed.

End ExactTable.

(** ** Invariances and bounds of [compute_dsi], in exact arithmetic *)

Module Invariance.
Import Exact ClosedForm.
Local Open Scope Qc_scope.

Lemma Qc_abs_Qabs (x : Qc) : (this (Qc_abs x) == Qabs (this x))%Q.
Proof.
  unfold Qc_abs. destruct (Qclt_le_dec x 0) as [Hlt | Hge].
  - unfold Qclt in Hlt. cbn [this Qcopp Q2Qc]. rewrite Qred_correct.
    symmetry. apply Qabs_neg. by apply Qlt_le_weak.
  - unfold Qcle in Hge. symmetry. by apply Qabs_pos.
Qed.

Lemma Qc_abs_mult (x y : Qc) : Qc_abs (x * y) = Qc_abs x * Qc_abs y.
Proof.
  apply Qc_is_canon. cbn [this Qcmult Q2Qc].
  rewrite Qred_correct, !Qc_abs_Qabs. cbn [this Qcmult Q2Qc].
  rewrite Qred_correct. apply Qabs_Qmult.
Qed.

Lemma Qc_abs_sq (x : Qc) : Qc_abs x * Qc_abs x = x * x.
Proof.
  rewrite <- Qc_abs_mult. apply Qc_abs_nonneg.
  to_Q. nra.
Qed.

Lemma Qc_abs_0_iff (x : Qc) : Qc_abs x = 0 <-> x = 0.
Proof.
  split.
  - intros Hx. assert (Hsq := Qc_abs_sq x). rewrite Hx in Hsq.
    assert (Hz : x * x = 0) by (rewrite <- Hsq; ring).
    apply Qcmult_integral in Hz. tauto.
  - intros ->. reflexivity.
Qed.

Lemma Qc_abs_nonneg_le (x : Qc) : 0 <= Qc_abs x.
Proof.
  unfold Qcle. rewrite Qc_abs_Qabs. apply Qabs_nonneg.
Qed.

Lemma total_scale (c : Qc) (l : list Qc) :
  total (map (fun x => c * x) l) = c * total l.
Proof. induction l as [| x l IH]; simpl; [ring |]. rewrite IH. ring. Qed.

Lemma total_shift (t : Qc) (l : list Qc) :
  total (map (fun x => x + t) l) = total l + Qc_of_Z (Z.of_nat (length l)) * t.
Proof.
  induction l as [| x l IH]; [cbn; change (Qc_of_Z (Z.of_nat 0)) with 0; ring |].
  cbn [map total fold_right length]. fold (total (map (fun x => x + t) l)). fold (total l).
  rewrite IH, Qc_of_Z_succ. ring.
Qed.

Lemma np_mean_total (a : list Qc) :
  np_mean a = total a / Qc_of_Z (Z.of_nat (length a)).
Proof. unfold np_mean. by rewrite add_reduce_total. Qed.

Lemma np_var_total (a : list Qc) :
  np_var a 0
  = total (map (fun x => (x - np_mean a) * (x - np_mean a)) a)
    / Qc_of_Z (Z.of_nat (length a)).
Proof.
  unfold np_var.
  change (fdiv (add_reduce a) (of_Z (Z.of_nat (length a)))) with (np_mean a).
  rewrite add_reduce_total, Z.sub_0_r, Z.max_l, map_map by lia. reflexivity.
Qed.

Lemma mad_of_total (a : list Qc) :
  mad_of a
  = total (map (fun x => Qc_abs (x - np_mean a)) a)
    / Qc_of_Z (Z.of_nat (length a)).
Proof.
  unfold mad_of. rewrite np_mean_total at 1. by rewrite map_map, !length_map.
Qed.

Lemma np_mean_scale (c : Qc) (a : list Qc) :
  np_mean (map (fun x => c * x) a) = c * np_mean a.
Proof.
  rewrite !np_mean_total, length_map, total_scale. unfold Qcdiv. ring.
Qed.

Lemma np_var_scale (c : Qc) (a : list Qc) :
  np_var (map (fun x => c * x) a) 0 = c * c * np_var a 0.
Proof.
  rewrite !np_var_total, np_mean_scale, length_map, map_map.
  rewrite (map_ext _ (fun x => (c * c) * ((x - np_mean a) * (x - np_mean a))))
    by (intros x; ring).
  rewrite <- (map_map (fun x => (x - np_mean a) * (x - np_mean a))
                (fun y => c * c * y)), total_scale.
  unfold Qcdiv. ring.
Qed.

Lemma mad_of_scale (c : Qc) (a : list Qc) :
  mad_of (map (fun x => c * x) a) = Qc_abs c * mad_of a.
Proof.
  rewrite !mad_of_total, np_mean_scale, length_map, map_map.
  rewrite (map_ext _ (fun x => Qc_abs c * Qc_abs (x - np_mean a))).
  2:{ intros x. rewrite <- Qc_abs_mult. f_equal. ring. }
  rewrite <- (map_map (fun x => Qc_abs (x - np_mean a))
                (fun y => Qc_abs c * y)), total_scale.
  unfold Qcdiv. ring.
Qed.

Lemma Qc_eq_bool_false (x y : Qc) : x <> y -> Qc_eq_bool x y = false.
Proof.
  intros Hne. destruct (Qc_eq_bool x y) eqn:Heq; [| reflexivity].
  apply Qc_eq_bool_correct in Heq. contradiction.
Qed.


Lemma np_mean_shift (t : Qc) (a : list Qc) :
  (0 < length a)%nat -> np_mean (map (fun x => x + t) a) = np_mean a + t.
Proof.
  intros Hlen. rewrite !np_mean_total, length_map, total_shift.
  field. apply Qc_of_Z_neq_0. lia.
Qed.


(** Order facts of [Qc], hypotheses included, through [Q]. *)
Ltac to_Q_all :=
  unfold Qclt, Qcle in *;
  cbn [this Qcminus Qcplus Qcopp Q2Qc Qc_of_Z half Qcdiv Qcmult Qcinv] in *;
  rewrite ?Qred_correct in *.

Lemma Qc_eq_Qeq (x y : Qc) : x = y <-> (this x == this y)%Q.
Proof. split; [by intros -> | apply Qc_is_canon]. Qed.

Lemma Qc_sum_zero (x y : Qc) : 0 <= x -> 0 <= y -> x + y = 0 -> x = 0 /\ y = 0.
Proof.
  intros Hx Hy Hsum. apply Qc_eq_Qeq in Hsum. rewrite !Qc_eq_Qeq.
  to_Q_all. split; lra.
Qed.

Lemma total_nonneg (l : list Qc) : Forall (fun x => 0 <= x) l -> 0 <= total l.
Proof.
  induction 1 as [| x l Hx _ IH]; simpl; [apply Qcle_refl |].
  to_Q_all. lra.
Qed.

Lemma total_zero_all (l : list Qc) :
  Forall (fun x => 0 <= x) l -> total l = 0 -> Forall (fun x => x = 0) l.
Proof.
  induction 1 as [| x l Hx Hl IH]; simpl; intros Hsum; constructor.
  - by apply (Qc_sum_zero x (total l) Hx (total_nonneg l Hl)).
  - apply IH. by apply (Qc_sum_zero x (total l) Hx (total_nonneg l Hl)).
Qed.

Lemma total_const (v : Qc) (l : list Qc) :
  Forall (eq v) l -> total l = Qc_of_Z (Z.of_nat (length l)) * v.
Proof.
  induction 1 as [| x l <- _ IH].
  - cbn. change (Qc_of_Z (Z.of_nat 0)) with 0. ring.
  - cbn [total fold_right length]. fold (total l). rewrite IH, Qc_of_Z_succ. ring.
Qed.

Lemma div_zero_num (t n : Qc) : n <> 0 -> t / n = 0 -> t = 0.
Proof.
  intros Hn Hz. assert (Ht : t = t / n * n) by (field; exact Hn).
  rewrite Ht, Hz. ring.
Qed.

Lemma sub_zero_eq (x m : Qc) : x - m = 0 -> m = x.
Proof.
  intros Hz. assert (Hx : x = x - m + m) by ring.
  rewrite Hx, Hz. ring.
Qed.



Lemma Qc_sq_nonneg (z : Qc) : 0 <= z * z.
Proof. to_Q. nra. Qed.

(** The square of a sum is at most the length times the sum of the
    squares. *)
Lemma cross_term_bound (y : Qc) (l : list Qc) :
  (1 + 1) * y * total l
  <= Qc_of_Z (Z.of_nat (length l)) * (y * y) + total (map (fun x => x * x) l).
Proof.
  induction l as [| x l IH].
  - cbn. change (Qc_of_Z (Z.of_nat 0)) with 0. to_Q_all. lra.
  - cbn [map total fold_right length].
    fold (total l). fold (total (map (fun x => x * x) l)).
    rewrite Qc_of_Z_succ.
    assert (Hsq := Qc_sq_nonneg (y - x)).
    to_Q_all. lra.
Qed.

Lemma square_of_total_bound (l : list Qc) :
  total l * total l
  <= Qc_of_Z (Z.of_nat (length l)) * total (map (fun x => x * x) l).
Proof.
  induction l as [| x l IH].
  - cbn. change (Qc_of_Z (Z.of_nat 0)) with 0. to_Q_all. lra.
  - cbn [map total fold_right length].
    fold (total l). fold (total (map (fun x => x * x) l)).
    rewrite Qc_of_Z_succ.
    assert (Hc := cross_term_bound x l).
    to_Q_all. nra.
Qed.

Lemma Qc_div_ge_1 (x y : Qc) : 0 < y -> y <= x -> 1 <= x / y.
Proof.
  intros Hy Hxy. to_Q_all. apply Qle_shift_div_l; [exact Hy | lra].
Qed.

Lemma Qc_div_le_compat (x y n : Qc) : 0 < n -> x <= y -> x / n <= y / n.
Proof.
  intros Hn Hxy. to_Q_all.
  apply Qmult_le_compat_r; [exact Hxy |].
  apply Qlt_le_weak, Qinv_lt_0_compat. exact Hn.
Qed.

Lemma Qc_sq_pos (x : Qc) : x <> 0 -> 0 < x * x.
Proof.
  intros Hx. assert (Hge : 0 <= x * x) by (to_Q_all; nra).
  apply Qcle_lt_or_eq in Hge. destruct Hge as [Hlt | Heq]; [exact Hlt |].
  symmetry in Heq. apply Qcmult_integral in Heq. tauto.
Qed.

(** The variance is at least the square of the mean absolute
    deviation. *)
Lemma mad_sq_le_var (a : list Qc) :
  (0 < length a)%nat -> mad_of a * mad_of a <= np_var a 0.
Proof.
  intros Hlen.
  assert (Hn0 : Qc_of_Z (Z.of_nat (length a)) <> 0)
    by (apply Qc_of_Z_neq_0; lia).
  assert (Hn : 0 < Qc_of_Z (Z.of_nat (length a))).
  { change 0 with (Qc_of_Z 0). apply Qc_of_Z_lt. lia. }
  assert (Hnn : 0 < Qc_of_Z (Z.of_nat (length a)) * Qc_of_Z (Z.of_nat (length a)))
    by (by apply Qc_sq_pos).
  rewrite mad_of_total, np_var_total.
  assert (Hcs := square_of_total_bound (map (fun x => Qc_abs (x - np_mean a)) a)).
  rewrite map_map, length_map in Hcs.
  rewrite (map_ext (fun x => Qc_abs (x - np_mean a) * Qc_abs (x - np_mean a))
             (fun x => (x - np_mean a) * (x - np_mean a))) in Hcs
    by (intros x; apply Qc_abs_sq).
  set (S := total (map (fun x => Qc_abs (x - np_mean a)) a)) in *.
  set (T := total (map (fun x => (x - np_mean a) * (x - np_mean a)) a)) in *.
  set (n := Qc_of_Z (Z.of_nat (length a))) in *.
  replace (S / n * (S / n)) with (S * S / (n * n)) by (field; exact Hn0).
  replace (T / n) with (n * T / (n * n)) by (field; exact Hn0).
  by apply Qc_div_le_compat.
Qed.


End Invariance.

(** ** Edge cases of [compute_perturbed_dsi] *)

Section PerturbedEdges.
Context {F : Type} `{Arith F}.

Lemma length_scatter (a : list F) (idx : list Z) :
  forall vals, length (scatter a idx vals) = length a.
Proof.
  unfold scatter. revert a.
  induction idx as [| i idx IH]; intros a [| v vals]; simpl; try done.
  by rewrite IH, length_insert.
Qed.

Lemma length_perturbed (N : Z) (idx : list Z) (c : F) :
  length (perturbed N idx c) = Z.to_nat N.
Proof.
  unfold perturbed. cbv zeta. by rewrite length_scatter, length_np_array_range.
Qed.

(** X8: what a call does to the global generator.  When the sample is
    empty the generator is left as it was and the value is that of
    [compute_dsi] on [{1, ..., N}]; otherwise it is left in the state
    reached by drawing the sample from seed 42, whatever it was before. *)
Theorem compute_perturbed_dsi_generator
    (fuel : nat) (N : Z) (frac mag : F) (n_perturb : Z)
    (w : world F) (r : result F) (w' : world F) :
  py_int (fmul (of_Z N) frac) = Ok n_perturb ->
  compute_perturbed_dsi fuel N frac mag w = Some (r, w') ->
  if 0 <? n_perturb
  then exists out,
         RandomState.choice fuel N n_perturb
           (MT19937.mt19937_seed (Uint63.of_Z 42)) = Some (out, rng w')
  else rng w' = rng w /\ r = compute_dsi (np_array (py_range 1 (N + 1))).
Proof.
  intros Hint Hrun. rewrite compute_perturbed_dsi_run in Hrun. cbv zeta in Hrun.
  rewrite Hint in Hrun. destruct (0 <? n_perturb).
  - destruct (RandomState.choice fuel N n_perturb _) as [[[idx | e] g] |];
      [| | discriminate]; injection Hrun as _ <-; by eexists.
  - injection Hrun as <- <-. done.
Qed.

(** X9: for [N < 2] no value is returned: whatever the fraction, the call
    ends in an exception. *)
Theorem compute_perturbed_dsi_needs_two
    (fuel : nat) (N : Z) (frac mag : F)
    (w : world F) (r : result F) (w' : world F) :
  N < 2 ->
  compute_perturbed_dsi fuel N frac mag w = Some (r, w') ->
  exists e, r = Raise e.
Proof.
  intros HN Hrun. rewrite compute_perturbed_dsi_run in Hrun. cbv zeta in Hrun.
  destruct (py_int (fmul (of_Z N) frac)) as [n | e].
  - destruct (0 <? n).
    + destruct (RandomState.choice fuel N n _) as [[[idx | e] g] |];
        [| | discriminate]; injection Hrun as <- _.
      * rewrite compute_dsi_short by (rewrite length_perturbed; lia). by eexists.
      * by eexists.
    + injection Hrun as <- _. rewrite compute_dsi_range_short by exact HN.
      by eexists.
  - injection Hrun as <- _. by eexists.
Qed.

(** X10: a sample larger than the sequence is refused: with
    [n_perturb > N >= 1] the call raises the [ValueError] of
    [np.random.choice], after reseeding the generator. *)
Theorem compute_perturbed_dsi_oversized
    (fuel : nat) (N : Z) (frac mag : F) (n_perturb : Z) (w : world F) :
  1 <= N ->
  py_int (fmul (of_Z N) frac) = Ok n_perturb ->
  N < n_perturb ->
  compute_perturbed_dsi fuel N frac mag w =
    Some (Raise (ValueError RandomState.msg_choice_larger),
          {| heap := heap w ++ [np_array (py_range 1 (N + 1))];
             rng := MT19937.mt19937_seed (Uint63.of_Z 42) |}).
Proof.
  intros HN Hint Hlt. rewrite compute_perturbed_dsi_run. cbv zeta.
  rewrite Hint.
  destruct (Z.ltb_spec 0 n_perturb) as [_ | Hle]; [| lia].
  unfold RandomState.choice.
  destruct (Z.leb_spec N 0) as [Hn | _]; [lia |]. cbn [andb].
  destruct (Z.ltb_spec N n_perturb) as [_ | Hge]; [| lia].
  reflexivity.
Qed.

End PerturbedEdges.

Lemma mul_nan_r (x : float) : (x * nan)%float = nan.
Proof.
  apply Prim2SF_inj. rewrite FloatAxioms.mul_spec.
  replace (Prim2SF nan) with S754_nan by reflexivity.
  unfold SF64mul. by destruct (Prim2SF x).
Qed.

(** X11: a NaN fraction makes [int(N * fraction)] raise [ValueError],
    before anything is drawn. *)
Theorem compute_perturbed_dsi_nan_fraction
    (fuel : nat) (N : Z) (mag : float) (w : world float) :
  compute_perturbed_dsi fuel N nan mag w =
    Some (Raise (ValueError msg_nan_to_int),
          {| heap := heap w ++ [np_array (py_range 1 (N + 1))]; rng := rng w |}).
Proof.
  rewrite compute_perturbed_dsi_run. cbv zeta.
  change (fmul (of_Z N) nan) with (float_of_Z N * nan)%float.
  rewrite mul_nan_r. reflexivity.
Qed.

(** ** The sample drawn by [np.random.choice] *)

Module Shuffle.
Import RandomState.

Lemma lookup_identity_map (n : nat) :
  forall a i, a <= i < a + Z.of_nat n ->
    (list_to_map (map (fun i => (i, i)) (range_from n a)) : int_array) !! i
    = Some i.
Proof.
  unfold int_array. induction n as [| n IH]; intros a i Hi; [lia |].
  change (range_from (S n) a) with (a :: range_from n (a + 1)).
  rewrite map_cons. cbv beta. rewrite list_to_map_cons.
  destruct (decide (a = i)) as [-> | Hne].
  - by rewrite lookup_insert_eq.
  - rewrite lookup_insert_ne by done. apply IH. lia.
Qed.

Lemma arange_lookup (n i : Z) : 0 <= i < n -> arange n !!! i = i.
Proof.
  intros Hi. unfold arange, py_range, int_array.
  apply lookup_total_correct.
  apply lookup_identity_map. lia.
Qed.

Lemma arange_is_permutation (n : Z) : is_permutation n (arange n).
Proof.
  split.
  - intros i Hi. by rewrite arange_lookup.
  - intros i j Hi Hj. by rewrite !arange_lookup.
Qed.

Lemma swap_lookup (x : gmap Z Z) (i j a : Z) :
  <[i := x !!! j]> (<[j := x !!! i]> x) !!! a
  = if decide (a = i) then x !!! j
    else if decide (a = j) then x !!! i else x !!! a.
Proof.
  destruct (decide (a = i)) as [-> | Hi].
  - by rewrite lookup_total_insert_eq.
  - rewrite lookup_total_insert_ne by done.
    destruct (decide (a = j)) as [-> | Hj].
    + by rewrite lookup_total_insert_eq.
    + by rewrite lookup_total_insert_ne.
Qed.

Lemma swap_is_permutation (n : Z) (x : gmap Z Z) (i j : Z) :
  0 <= i < n -> 0 <= j < n -> is_permutation n x ->
  is_permutation n (<[i := x !!! j]> (<[j := x !!! i]> x)).
Proof.
  unfold is_permutation, int_array. intros Hi Hj [Hrange Hinj]. split.
  - intros a Ha. rewrite swap_lookup. repeat case_decide; by apply Hrange.
  - intros a b Ha Hb. rewrite !swap_lookup.
    repeat case_decide; subst; intros Heq; try done;
      apply Hinj in Heq; try done; congruence.
Qed.

Lemma reject_loop_range (fuel : nat) next (mask max : Z) g j g' :
  0 <= mask ->
  reject_loop fuel next mask max g = Some (Ok j, g') -> 0 <= j <= max.
Proof.
  intros Hmask. revert g.
  induction fuel as [| fuel IH]; intros g; cbn [reject_loop]; [discriminate |].
  unfold mbind, draw. destruct (next g) as [x g1].
  destruct (Z.ltb_spec max (Z.land x mask)) as [Hlt | Hge].
  - apply IH.
  - unfold ret. intros [= <- _]. split; [| exact Hge].
    apply Z.land_nonneg. by right.
Qed.

Lemma random_interval_range (fuel : nat) (max : Z) g j g' :
  0 <= max ->
  random_interval fuel max g = Some (Ok j, g') -> 0 <= j <= max.
Proof.
  intros Hmax. unfold random_interval.
  destruct (Z.eqb_spec max 0) as [-> | Hne].
  - unfold ret. intros [= <- _]. lia.
  - assert (Hmask : 0 <= Z.ones (Z.log2 max + 1)).
    { rewrite Z.ones_equiv. pose proof (Z.log2_nonneg max).
      assert (0 < 2 ^ (Z.log2 max + 1)) by (apply Z.pow_pos_nonneg; lia). lia. }
    destruct (max <=? 4294967295); by apply reject_loop_range.
Qed.

Lemma shuffle_raw_is_permutation (fuel : nat) (n : Z) (steps : nat) :
  forall i x g x' g',
    Z.of_nat steps <= i < n -> is_permutation n x ->
    shuffle_raw fuel steps i x g = Some (Ok x', g') -> is_permutation n x'.
Proof.
  induction steps as [| steps IH]; intros i x g x' g' Hi Hx; cbn [shuffle_raw].
  - unfold ret. by intros [= <- _].
  - unfold mbind at 1.
    destruct (random_interval fuel i g) as [[[j | e] g1] |] eqn:Hj;
      [| discriminate | discriminate].
    apply random_interval_range in Hj; [| lia].
    apply IH; [lia |]. apply swap_is_permutation; [lia | lia | exact Hx].
Qed.

End Shuffle.

Module Sample.
Import RandomState Shuffle.

Lemma elem_of_range_from (n : nat) :
  forall a z, z ∈ range_from n a <-> a <= z < a + Z.of_nat n.
Proof.
  induction n as [| n IH]; intros a z; cbn [range_from].
  - rewrite elem_of_nil. lia.
  - rewrite elem_of_cons, IH. lia.
Qed.

Lemma NoDup_range_from (n : nat) : forall a, NoDup (range_from n a).
Proof.
  induction n as [| n IH]; intros a; cbn [range_from]; constructor.
  - rewrite elem_of_range_from. lia.
  - apply IH.
Qed.

Lemma elem_of_py_range (a b z : Z) : z ∈ py_range a b <-> a <= z < b.
Proof. unfold py_range. rewrite elem_of_range_from. lia. Qed.

Lemma to_list_NoDup (n : Z) (x : int_array) :
  is_permutation n x -> NoDup (to_list n x).
Proof.
  intros [_ Hinj]. unfold to_list.
  apply NoDup_fmap_2_strong; [| apply NoDup_range_from].
  intros i j Hi%elem_of_py_range Hj%elem_of_py_range. by apply Hinj.
Qed.

Lemma to_list_range (n : Z) (x : int_array) (z : Z) :
  is_permutation n x -> z ∈ to_list n x -> 0 <= z < n.
Proof.
  intros [Hrange _]. unfold to_list.
  intros (i & -> & Hi%elem_of_py_range)%list_elem_of_fmap. by apply Hrange.
Qed.

Lemma length_to_list (n : Z) (x : int_array) :
  length (to_list n x) = Z.to_nat n.
Proof.
  unfold to_list, py_range. rewrite length_map, Exact.length_range_from.
  f_equal. lia.
Qed.

(** [permutation(n)] returns a rearrangement of [range(n)]. *)
Lemma permutation_rearranges (fuel : nat) (n : Z) g l g' :
  permutation fuel n g = Some (Ok l, g') -> l ≡ₚ py_range 0 n.
Proof.
  unfold permutation, mbind.
  destruct (shuffle_raw fuel _ _ _ g) as [[[x | e] g1] |] eqn:Hx;
    [| discriminate | discriminate].
  unfold ret. intros [= <- _].
  assert (Hperm : is_permutation n x).
  { destruct (Z.le_gt_cases n 0) as [Hn | Hn].
    - split; intros; lia.
    - eapply shuffle_raw_is_permutation; [| apply arange_is_permutation | exact Hx].
      lia. }
  apply submseteq_length_Permutation.
  - apply NoDup_submseteq; [by apply to_list_NoDup |].
    intros z Hz%(to_list_range _ _ _ Hperm). by apply elem_of_py_range.
  - rewrite length_to_list. unfold py_range.
    rewrite Exact.length_range_from. lia.
Qed.

(** The indices [choice(a, size, replace=False)] returns are [size]
    distinct positions of [range(a)]. *)
Lemma choice_distinct (fuel : nat) (a size : Z) g idx g' :
  choice fuel a size g = Some (Ok idx, g') ->
  NoDup idx /\ Forall (fun i => 0 <= i < a) idx
  /\ length idx = Z.to_nat size /\ 0 <= size <= a.
Proof.
  unfold choice.
  destruct ((a <=? 0) && negb (size =? 0)); [discriminate |].
  destruct (Z.ltb_spec a size) as [| Hle]; [discriminate |].
  destruct (Z.ltb_spec size 0) as [| Hge]; [discriminate |].
  unfold mbind.
  destruct (permutation fuel a g) as [[[l | e] g1] |] eqn:Hl;
    [| discriminate | discriminate].
  unfold ret. intros [= <- _].
  apply permutation_rearranges in Hl.
  assert (Hlen : length l = Z.to_nat a).
  { rewrite Hl. unfold py_range. rewrite Exact.length_range_from. f_equal. lia. }
  repeat split; try lia.
  - eapply sublist_NoDup; [| apply sublist_take]. rewrite Hl. apply NoDup_range_from.
  - apply Forall_take. rewrite Hl. apply Forall_forall.
    intros z Hz. by apply elem_of_py_range.
  - rewrite length_take. lia.
Qed.

End Sample.

Section WorkingCopy.
Context {F : Type} `{Arith F}.

Lemma scatter_lookup (a : list F) (f : Z -> F) (idx : list Z) (p : nat) :
  Forall (fun i => 0 <= i < Z.of_nat (length a)) idx ->
  scatter a idx (map f idx) !! p
  = if decide (Z.of_nat p ∈ idx) then
      (if decide (p < length a)%nat then Some (f (Z.of_nat p)) else None)
    else a !! p.
Proof.
  unfold scatter. revert a.
  induction idx as [| i idx IH] using rev_ind; intros a Hidx.
  - cbn [map zip_with fold_left]. case_decide as Hin; [| done]. by apply elem_of_nil in Hin.
  - apply Forall_app in Hidx as [Hidx Hi]. rewrite Forall_singleton in Hi.
    rewrite map_app, zip_with_app by (by rewrite length_map).
    rewrite fold_left_app. cbn [map zip_with fold_left fst snd].
    destruct (decide (p = Z.to_nat i)) as [-> | Hne].
    + rewrite list_lookup_insert_eq.
      2:{ fold (scatter a idx (map f idx)). rewrite length_scatter. lia. }
      rewrite Z2Nat.id by lia.
      rewrite decide_True by (apply elem_of_app; right; by apply list_elem_of_singleton).
      rewrite decide_True by lia. done.
    + rewrite list_lookup_insert_ne by done.
      fold (scatter a idx (map f idx)) in *. unfold scatter in IH. unfold scatter.
      rewrite IH by done.
      assert (Hiff : Z.of_nat p ∈ idx ++ [i] <-> Z.of_nat p ∈ idx).
      { rewrite elem_of_app, list_elem_of_singleton. split; [| tauto].
        intros [? | ?]; [done | lia]. }
      repeat case_decide; tauto || done.
Qed.

End WorkingCopy.

Module Convergence.
Import Exact ClosedForm Invariance.
Local Open Scope Qc_scope.


(** X13: for odd [N >= 3], in exact arithmetic, [compute_dsi] on
    [{1, ..., N}] returns [(4/3) * N^2 / (N^2 - 1)]: above 4/3, and not
    the value of [compute_dsi_theoretical]. *)
Theorem compute_dsi_odd (N : Z) :
  (3 <= N)%Z -> Z.odd N = true ->
  compute_dsi (F := Qc) (np_array (py_range 1 (N + 1))) = Ok (dsi_odd N) /\
  four_thirds < dsi_odd N /\
  compute_dsi (F := Qc) (np_array (py_range 1 (N + 1)))
    <> compute_dsi_theoretical N.
Proof.
  intros HN Hodd.
  rewrite compute_dsi_closed_form_odd by done.
  pose proof (dsi_odd_above N ltac:(lia)) as Habove.
  split; [reflexivity |]. split; [exact Habove |].
  rewrite theoretical_exact by lia. intros Heq.
  assert (Heq' : dsi_odd N = four_thirds - four_thirds / (Qc_of_Z N * Qc_of_Z N))
    by congruence.
  destruct (inv_sq_decreasing 1 N ltac:(lia)) as [_ Hpos].
  revert Habove Hpos. rewrite Heq'.
  generalize (four_thirds / (Qc_of_Z N * Qc_of_Z N)). intros d Habove Hpos.
  to_Q_all. lra.
Qed.

End Convergence.

Module Order.
Import Exact Invariance.
Local Open Scope Qc_scope.

Lemma total_Permutation (l k : list Qc) : l ≡ₚ k -> total l = total k.
Proof.
  induction 1 as [| x l k _ IH | x y l | l k j _ IH1 _ IH2]; cbn.
  - reflexivity.
  - fold (total l). fold (total k). by rewrite IH.
  - fold (total l). ring.
  - by rewrite IH1.
Qed.


End Order.

Section Sampled.
Context {F : Type} `{Arith F}.

Lemma np_array_range_lookup (N p : Z) :
  0 <= p < N ->
  np_array (F := F) (py_range 1 (N + 1)) !! Z.to_nat p = Some (of_Z (p + 1)).
Proof.
  intros Hp. unfold np_array, py_range.
  replace (N + 1 - 1) with N by lia.
  rewrite list_lookup_fmap.
  assert (Hgen : forall n a i, (i < n)%nat ->
            range_from n a !! i = Some (a + Z.of_nat i)).
  { induction n as [| n IH]; intros a [| i] Hi; cbn [range_from]; try lia.
    - simpl. f_equal. lia.
    - simpl. rewrite IH by lia. f_equal. lia. }
  rewrite Hgen by lia. simpl. do 2 f_equal. lia.
Qed.

(** X15: when [0 < n_perturb], a value returned is the DSI of the
    sequence [{1, ..., N}] in which the elements at [n_perturb] distinct
    positions, and no other, are multiplied by
    [1 + perturbation_magnitude]. *)
Theorem compute_perturbed_dsi_scales_sample
    (fuel : nat) (N : Z) (frac mag : F) (n_perturb : Z)
    (w : world F) (v : F) (w' : world F) :
  py_int (fmul (of_Z N) frac) = Ok n_perturb ->
  0 < n_perturb ->
  compute_perturbed_dsi fuel N frac mag w = Some (Ok v, w') ->
  exists (idx : list Z) (R : list F),
    NoDup idx /\ Forall (fun i => 0 <= i < N) idx /\
    length idx = Z.to_nat n_perturb /\ n_perturb <= N /\
    length R = Z.to_nat N /\
    (forall p, 0 <= p < N ->
       R !! Z.to_nat p =
         Some (if decide (p ∈ idx)
               then fmul (of_Z (p + 1)) (fadd (of_Z 1) mag)
               else of_Z (p + 1))) /\
    compute_dsi R = Ok v.
Proof.
  intros Hint Hpos Hrun. rewrite compute_perturbed_dsi_run in Hrun.
  cbv zeta in Hrun. rewrite Hint in Hrun.
  destruct (Z.ltb_spec 0 n_perturb) as [_ | Hle]; [| lia].
  destruct (RandomState.choice fuel N n_perturb _) as [[[idx | e] g] |] eqn:Hidx;
    [| discriminate | discriminate].
  apply Sample.choice_distinct in Hidx as (Hnodup & Hrange & Hlen & Hsize).
  injection Hrun as Hv _.
  exists idx, (perturbed N idx (fadd (of_Z 1) mag)).
  repeat split; try done; try lia.
  - apply length_perturbed.
  - intros p Hp. unfold perturbed. cbv zeta.
    rewrite (scatter_lookup _
               (fun i => fmul (np_array (py_range 1 (N + 1)) !!! Z.to_nat i)
                              (fadd (of_Z 1) mag))).
    2:{ rewrite length_np_array_range. eapply Forall_impl; [exact Hrange |].
        cbv beta. intros i Hi. lia. }
    rewrite Z2Nat.id by lia. rewrite length_np_array_range.
    rewrite np_array_range_lookup by exact Hp.
    rewrite (list_lookup_total_correct _ _ _ (np_array_range_lookup N p Hp)).
    repeat case_decide; try done. lia.
Qed.

End Sampled.

Module MoreExamples.
Local Open Scope Qc_scope.


Lemma compute_dsi_odd_witness :
  compute_dsi (F := Qc) (np_array (py_range 1 (3 + 1))) = Ok (dsi_odd 3) /\
  four_thirds < dsi_odd 3 /\
  compute_dsi (F := Qc) (np_array (py_range 1 (3 + 1)))
    <> compute_dsi_theoretical 3.
Proof. apply (Convergence.compute_dsi_odd 3); [lia | reflexivity]. Defined.




Local Close Scope Qc_scope.

Lemma compute_perturbed_dsi_scales_sample_witness :
  exists v w',
    compute_perturbed_dsi sample_fuel 10 0.5%float 0.5%float sample_world
      = Some (Ok v, w') /\
    exists (idx : list Z) (R : list float),
      NoDup idx /\ Forall (fun i => 0 <= i < 10) idx /\
      length idx = Z.to_nat 5 /\ 5 <= 10 /\
      length R = Z.to_nat 10 /\
      (forall p, 0 <= p < 10 ->
         R !! Z.to_nat p =
           Some (if decide (p ∈ idx)
                 then fmul (of_Z (p + 1)) (fadd (of_Z 1) 0.5%float)
                 else of_Z (p + 1))) /\
      compute_dsi R = Ok v.
Proof.
  destruct (compute_perturbed_dsi sample_fuel 10 0.5%float 0.5%float sample_world)
    as [[[v | e] w'] |] eqn:Hrun.
  - exists v, w'. split; [reflexivity |].
    apply (compute_perturbed_dsi_scales_sample
             sample_fuel 10 0.5%float 0.5%float 5 sample_world v w');
      [vm_compute; reflexivity | lia | exact Hrun].
  - vm_compute in Hrun. discriminate.
  - vm_compute in Hrun. discriminate.
Defined.

Lemma compute_perturbed_dsi_generator_witness :
  exists r w',
    compute_perturbed_dsi sample_fuel 10 0.5%float 0.5%float sample_world
      = Some (r, w') /\
    exists out,
      RandomState.choice sample_fuel 10 5 (MT19937.mt19937_seed (Uint63.of_Z 42))
        = Some (out, rng w').
Proof.
  destruct (compute_perturbed_dsi sample_fuel 10 0.5%float 0.5%float sample_world)
    as [[r w'] |] eqn:Hrun.
  - exists r, w'. split; [reflexivity |].
    apply (compute_perturbed_dsi_generator (F := float)
             sample_fuel 10 0.5%float 0.5%float 5 sample_world r w');
      [vm_compute; reflexivity | exact Hrun].
  - vm_compute in Hrun. discriminate.
Defined.

Lemma compute_perturbed_dsi_needs_two_witness :
  exists r w',
    compute_perturbed_dsi sample_fuel 1 1%float 0.5%float sample_world
      = Some (r, w') /\
    exists e, r = Raise e.
Proof.
  destruct (compute_perturbed_dsi sample_fuel 1 1%float 0.5%float sample_world)
    as [[r w'] |] eqn:Hrun.
  - exists r, w'. split; [reflexivity |].
    apply (compute_perturbed_dsi_needs_two
             sample_fuel 1 1%float 0.5%float sample_world r w');
      [lia | exact Hrun].
  - vm_compute in Hrun. discriminate.
Defined.

Lemma compute_perturbed_dsi_oversized_witness :
  compute_perturbed_dsi sample_fuel 10 1.5%float 0.5%float sample_world =
    Some (Raise (ValueError RandomState.msg_choice_larger),
          {| heap := heap sample_world ++ [np_array (py_range 1 (10 + 1))];
             rng := MT19937.mt19937_seed (Uint63.of_Z 42) |}).
Proof.
  apply (compute_perturbed_dsi_oversized sample_fuel 10 1.5%float 0.5%float 15);
    [lia | vm_compute; reflexivity | lia].
Defined.

End MoreExamples.
